(** * Lab_2_4_LR2: a linear-regression toolkit on numpy arrays

    A shallow embedding of [src/Lab_2_4_LR2.py]: the [LinearRegressor] class
    ([fit], [fit_multiple], [fit_gradient_descent], [predict]),
    [evaluate_regression] and [one_hot_encode].

    - Python exceptions are an error type [exn]; a call either returns a
      value or raises, and the state it leaves behind is kept in both cases.
    - numpy scalars are a type [A] with the operations of the class
      [Numeric]; no algebraic law is assumed, so every generic lemma holds
      for IEEE-754 binary64 (the instance [float64], which runs on the
      kernel's primitive floats) as well as for exact arithmetic.  The order
      in which numpy adds the terms of a sum is fixed here as left to right.
    - a 2-D array carries its column count, so that arrays of shape [(0, d)]
      are represented.
    - arrays that the code mutates in place, or whose identity matters
      (copies), live in a heap and are referred to by location. *)

From Stdlib Require Import ZArith String Floats Lia.
From stdpp Require Import gmap strings list sorting.

Set Default Proof Using "Type".

(** ** Python exceptions and the state-and-error monad *)

Inductive exn : Type :=
  | ValueError
  | IndexError
  | TypeError
  | ZeroDivisionError
  | LinAlgError.

Inductive result (T : Type) : Type :=
  | Ok (v : T)
  | Raise (e : exn).
Arguments Ok {T} v.
Arguments Raise {T} e.

Definition rbind {T U : Type} (r : result T) (k : T → result U) : result U :=
  match r with
  | Ok v => k v
  | Raise e => Raise e
  end.

(** A computation over a state [S]: the state is returned also when the
    computation raises (Python does not roll back). *)
Definition M (S T : Type) : Type := S → result T * S.

Definition ret {S T : Type} (v : T) : M S T := λ s, (Ok v, s).

Definition raise {S T : Type} (e : exn) : M S T := λ s, (Raise e, s).

Definition bind {S T U : Type} (c : M S T) (k : T → M S U) : M S U :=
  λ s, match c s with
       | (Ok v, s') => k v s'
       | (Raise e, s') => (Raise e, s')
       end.

Definition lift {S T : Type} (r : result T) : M S T := λ s, (r, s).

Definition gets {S T : Type} (f : S → T) : M S T := λ s, (Ok (f s), s).

Definition modify {S : Type} (f : S → S) : M S unit := λ s, (Ok tt, f s).

Declare Scope py_scope.
Delimit Scope py_scope with py.
Notation "'let!' x ':=' c 'in' k" := (bind c (λ x, k))
  (at level 10, x name, c at level 100, k at level 200) : py_scope.
Notation "c1 ';;' c2" := (bind c1 (λ _, c2))
  (at level 100, c2 at level 200, right associativity) : py_scope.
Notation "'let?' x ':=' r 'in' k" := (rbind r (λ x, k))
  (at level 10, x name, r at level 100, k at level 200) : py_scope.
Local Open Scope py_scope.

(** ** numpy scalars *)

(** The scalar operations the program uses.  [of_int] is the conversion of a
    Python int ([float(n)], as in [1 / m]); [lit_0_01] is the literal [0.01].
    The numeric arrays of the model are arrays of one floating dtype [A]
    (float64), whose arithmetic stays in [A]; arrays of an integer dtype,
    where numpy subtracts and squares in wrapping int64 before it divides in
    float64, are not modelled. *)
Class Numeric (A : Type) : Type := {
  n0 : A;
  n1 : A;
  nadd : A → A → A;
  nsub : A → A → A;
  nmul : A → A → A;
  ndiv : A → A → A;
  nsqrt : A → A;
  nabs : A → A;
  of_int : Z → A;
  lit_0_01 : A
}.

Declare Scope np_scope.
Delimit Scope np_scope with np.
Notation "0" := n0 : np_scope.
Notation "1" := n1 : np_scope.
Infix "+" := nadd : np_scope.
Infix "-" := nsub : np_scope.
Infix "*" := nmul : np_scope.
Infix "/" := ndiv : np_scope.

(** IEEE-754 binary64, numpy's [float64]. *)
Definition float_of_Z (z : Z) : float :=
  match z with
  | Z0 => PrimFloat.zero
  | Zpos _ => PrimFloat.of_uint63 (Uint63.of_Z z)
  | Zneg p => PrimFloat.opp (PrimFloat.of_uint63 (Uint63.of_Z (Zpos p)))
  end.

#[export] Instance float64 : Numeric float := {|
  n0 := PrimFloat.zero;
  n1 := PrimFloat.one;
  nadd := PrimFloat.add;
  nsub := PrimFloat.sub;
  nmul := PrimFloat.mul;
  ndiv := PrimFloat.div;
  nsqrt := PrimFloat.sqrt;
  nabs := PrimFloat.abs;
  of_int := float_of_Z;
  lit_0_01 := 0x1.47ae147ae147bp-7%float
|}.

(** ** numpy arrays *)

(** A 2-D array of shape [(length rows, ncols)]. *)
Record ndarray2 (T : Type) : Type := Mat {
  ncols : nat;
  rows : list (list T)
}.
Arguments Mat {T} ncols rows.
Arguments ncols {T} _.
Arguments rows {T} _.

Definition nrows {T : Type} (X : ndarray2 T) : nat := length (rows X).

(** Every row has [ncols] entries: the record is a rectangular array. *)
Definition rectangular {T : Type} (X : ndarray2 T) : Prop :=
  Forall (λ r, length r = ncols X) (rows X).

(** The argument [X] of [fit] and [predict]: an array with [np.ndim(X) == 1]
    or a 2-D array. *)
Inductive ndarray (T : Type) : Type :=
  | Arr1 (v : list T)
  | Arr2 (X : ndarray2 T).
Arguments Arr1 {T} v.
Arguments Arr2 {T} X.

(** [v.reshape(-1, 1)] *)
Definition reshape_column {T : Type} (v : list T) : ndarray2 T :=
  Mat 1 (map (λ x, [x]) v).

(** The columns of [n]-wide rows, top row first. *)
Fixpoint columns_of {T : Type} (n : nat) (rs : list (list T)) : list (list T) :=
  match rs with
  | [] => replicate n []
  | r :: rs' => zip_with cons r (columns_of n rs')
  end.

(** [np.transpose(X)] *)
Definition np_transpose {T : Type} (X : ndarray2 T) : ndarray2 T :=
  Mat (nrows X) (columns_of (ncols X) (rows X)).

(** [X[:, j]]: [IndexError] when [j] is not a column. *)
Definition column {T : Type} (j : nat) (X : ndarray2 T) : result (list T) :=
  if decide (j < ncols X) then
    match mapM (λ r : list T, r !! j) (rows X) with
    | Some c => Ok c
    | None => Raise IndexError
    end
  else Raise IndexError.

(** [np.delete(X, j, axis=1)] *)
Definition np_delete {T : Type} (X : ndarray2 T) (j : nat) : result (ndarray2 T) :=
  if decide (j < ncols X) then
    Ok (Mat (ncols X - 1) (map (λ r, take j r ++ drop (S j) r) (rows X)))
  else Raise IndexError.

(** [X[:, :j]] and [X[:, j:]]: slices clip to the shape. *)
Definition cols_before {T : Type} (j : nat) (X : ndarray2 T) : ndarray2 T :=
  Mat (j `min` ncols X) (map (take j) (rows X)).

Definition cols_from {T : Type} (j : nat) (X : ndarray2 T) : ndarray2 T :=
  Mat (ncols X - j) (map (drop j) (rows X)).

(** [np.hstack((X, Y))]: the row counts must agree. *)
Definition np_hstack {T : Type} (X Y : ndarray2 T) : result (ndarray2 T) :=
  if decide (nrows X = nrows Y) then
    Ok (Mat (ncols X + ncols Y) (zip_with app (rows X) (rows Y)))
  else Raise ValueError.

Section numeric_arrays.
Context {A : Type} `{Numeric A}.

(** [np.sum(v)] *)
Definition np_sum (v : list A) : A := foldl nadd n0 v.

(** [v ** 2] *)
Definition np_square (v : list A) : list A := map (λ x, x * x)%np v.

(** [s * v] for a scalar [s] *)
Definition np_scale (s : A) (v : list A) : list A := map (nmul s) v.

(** [u op v] for 1-D arrays, with numpy's broadcasting of a length-1
    operand; any other mismatch of lengths raises [ValueError]. *)
Definition broadcast (op : A → A → A) (u v : list A) : result (list A) :=
  if decide (length u = length v) then Ok (zip_with op u v)
  else match u, v with
       | _, [b] => Ok (map (λ a, op a b) u)
       | [a], _ => Ok (map (op a) v)
       | _, _ => Raise ValueError
       end.

(** The inner product behind every [np.dot]. *)
Definition inner (u v : list A) : A := np_sum (zip_with nmul u v).

(** [np.dot(X, v)] for a 2-D [X] and a 1-D [v] *)
Definition np_dot_mv (X : ndarray2 A) (v : list A) : result (list A) :=
  if decide (ncols X = length v) then Ok (map (λ r, inner r v) (rows X))
  else Raise ValueError.

(** [np.dot(X, Y)] for 2-D [X] and [Y] *)
Definition np_dot_mm (X Y : ndarray2 A) : result (ndarray2 A) :=
  if decide (ncols X = nrows Y) then
    Ok (Mat (ncols Y)
          (map (λ r, map (inner r) (columns_of (ncols Y) (rows Y))) (rows X)))
  else Raise ValueError.

(** [np.hstack((np.ones((X.shape[0], 1)), X))] *)
Definition with_bias (X : ndarray2 A) : ndarray2 A :=
  Mat (S (ncols X)) (map (cons 1%np) (rows X)).

(** [v.mean()]: numpy divides the sum by the length (no exception). *)
Definition np_mean (v : list A) : A := (np_sum v / of_int (Z.of_nat (length v)))%np.

(** Python's [1 / m] for an int [m]. *)
Definition py_one_over (m : nat) : result A :=
  if decide (m = 0%nat) then Raise ZeroDivisionError
  else Ok (1 / of_int (Z.of_nat m))%np.
End numeric_arrays.

(** ** class LinearRegressor *)

Definition loc : Type := nat.

Section linear_regressor.
Context {A : Type} `{Numeric A}.
(** The collaborators: [np.linalg.inv] ([None] stands for its
    [LinAlgError]) and the generator behind [np.random.rand]. *)
Context (linalg_inv : ndarray2 A → option (ndarray2 A)).
Context {G : Type} (random_rand : G → A * G).

(** The state a method call runs in: the heap of 1-D arrays, the two
    attributes of [self] ([None] until a fit sets them; [coefficients]
    refers to an array of the heap), the random generator, and what
    [print] wrote (epoch and loss). *)
Record world : Type := World {
  heap : gmap loc (list A);
  coefficients : option loc;
  intercept : option A;
  rng : G;
  stdout : list (nat * A)
}.

(** The three lists [fit_gradient_descent] fills; [w_history] holds the
    arrays appended to it by location.  The function returns them as the
    tuple [(loss_history, b_history, w_history)]. *)
Record history : Type := History {
  loss_history : list A;
  b_history : list A;
  w_history : list loc
}.

Definition alloc (v : list A) : M world loc := λ w,
  let l := fresh (dom (heap w)) in
  (Ok l, World (<[l := v]> (heap w)) (coefficients w) (intercept w) (rng w) (stdout w)).

(** A location the program holds is always allocated. *)
Definition load (l : loc) : M world (list A) :=
  gets (λ w, default [] (heap w !! l)).

Definition store (l : loc) (v : list A) : M world unit :=
  modify (λ w, World (<[l := v]> (heap w)) (coefficients w) (intercept w) (rng w) (stdout w)).

Definition set_coefficients (l : loc) : M world unit :=
  modify (λ w, World (heap w) (Some l) (intercept w) (rng w) (stdout w)).

Definition set_intercept (b : A) : M world unit :=
  modify (λ w, World (heap w) (coefficients w) (Some b) (rng w) (stdout w)).

Definition print (epoch : nat) (mse : A) : M world unit :=
  modify (λ w, World (heap w) (coefficients w) (intercept w) (rng w)
                 (stdout w ++ [(epoch, mse)])).

(** [self.intercept] and [self.coefficients] where the code computes with
    them: [None] is no number. *)
Definition get_intercept : M world A := λ w,
  match intercept w with
  | Some b => (Ok b, w)
  | None => (Raise TypeError, w)
  end.

Definition get_coefficients : M world loc := λ w,
  match coefficients w with
  | Some l => (Ok l, w)
  | None => (Raise TypeError, w)
  end.

(** [np.random.rand()] *)
Definition np_random_rand1 : M world A := λ w,
  let (x, g) := random_rand (rng w) in
  (Ok x, World (heap w) (coefficients w) (intercept w) g (stdout w)).

(** [np.random.rand(d)]: a negative dimension raises [ValueError]. *)
Fixpoint np_random_draws (d : nat) : M world (list A) :=
  match d with
  | O => ret []
  | S d' =>
      let! x := np_random_rand1 in
      let! xs := np_random_draws d' in
      ret (x :: xs)
  end.

Definition np_random_rand (d : Z) : M world (list A) :=
  if decide (d < 0)%Z then raise ValueError else np_random_draws (Z.to_nat d).

(** [w[0]] *)
Definition first_entry (w : list A) : result A :=
  match w with
  | [] => Raise IndexError
  | w0 :: _ => Ok w0
  end.

(** [c -= r] on an array: [r] must broadcast to the shape of [c]. *)
Definition isub (c r : list A) : result (list A) :=
  if decide (length c = length r) then Ok (zip_with nsub c r)
  else match r with
       | [x] => Ok (map (λ a, a - x)%np c)
       | _ => Raise ValueError
       end.

Definition fit_multiple (X : ndarray2 A) (y : list A) : M world unit :=
  let X_transpose := np_transpose X in
  let! XtX := lift (np_dot_mm X_transpose X) in
  let! inv := lift (match linalg_inv XtX with
                    | Some Xi => Ok Xi
                    | None => Raise LinAlgError
                    end) in
  let! P := lift (np_dot_mm inv X_transpose) in
  let! w := lift (np_dot_mv P y) in
  let! w0 := lift (first_entry w) in
  set_intercept w0 ;;
  let! l := alloc (drop 1 w) in
  set_coefficients l.

(** One pass through the body of the loop of [fit_gradient_descent]. *)
Definition gd_step (X : ndarray2 A) (y : list A) (learning_rate : A)
    (m : nat) (epoch : nat) (h : history) : M world history :=
  let! b := get_intercept in
  let! l := get_coefficients in
  let! c := load l in
  let! predictions := lift (np_dot_mv X (b :: c)) in
  let! error := lift (broadcast nsub predictions y) in
  let! k := lift (py_one_over m) in
  let! g := lift (np_dot_mv (np_transpose X) error) in
  let gradient := np_scale k g in
  let! g0 := lift (first_entry gradient) in
  set_intercept (b - learning_rate * g0)%np ;;
  let! c' := lift (isub c (np_scale learning_rate (drop 1 gradient))) in
  store l c' ;;
  let! k' := lift (py_one_over m) in
  let mse := (k' * np_sum (np_square error))%np in
  let! snapshot := alloc c' in
  let! b' := get_intercept in
  let h' := History (loss_history h ++ [mse])
                    (b_history h ++ [b'])
                    (w_history h ++ [snapshot]) in
  (if decide (epoch `mod` 100 = 0)%nat then print epoch mse else ret tt) ;;
  ret h'.

(** [for epoch in range(...)]: [n] passes left, the next one is [epoch]. *)
Fixpoint gd_loop (X : ndarray2 A) (y : list A) (learning_rate : A)
    (m : nat) (n : nat) (epoch : nat) (h : history) : M world history :=
  match n with
  | O => ret h
  | S n' =>
      let! h' := gd_step X y learning_rate m epoch h in
      gd_loop X y learning_rate m n' (S epoch) h'
  end.

Definition fit_gradient_descent (X : ndarray2 A) (y : list A)
    (learning_rate : A) (iterations : Z) : M world history :=
  let m := length y in
  let! r := np_random_rand (Z.of_nat (ncols X) - 1) in
  let! l := alloc (map (λ x, x * lit_0_01)%np r) in
  set_coefficients l ;;
  let! u := np_random_rand1 in
  set_intercept (u * lit_0_01)%np ;;
  gd_loop X y learning_rate m (Z.to_nat iterations) 0 (History [] [] []).

(** [fit] returns [None] on the least-squares path and the histories on
    the gradient-descent path. *)
Definition fit (X : ndarray A) (y : list A) (method : string)
    (learning_rate : A) (iterations : Z) : M world (option history) :=
  if decide (method ∉ ["least_squares"; "gradient_descent"]) then raise ValueError
  else
    let X2 := match X with
              | Arr1 v => reshape_column v
              | Arr2 X2 => X2
              end in
    let X_with_bias := with_bias X2 in
    if decide (method = "least_squares") then
      fit_multiple X_with_bias y ;; ret None
    else if decide (method = "gradient_descent") then
      let! h := fit_gradient_descent X_with_bias y learning_rate iterations in
      ret (Some h)
    else ret None.

Definition predict (X : ndarray A) : M world (list A) := λ w,
  match coefficients w, intercept w with
  | Some l, Some b =>
      (let! c := load l in
       match X with
       | Arr1 v =>
           let! p := lift (broadcast nmul c v) in
           ret (map (nadd b) p)
       | Arr2 X2 =>
           let! p := lift (np_dot_mv X2 c) in
           ret (map (nadd b) p)
       end) w
  | _, _ => (Raise ValueError, w)
  end.
End linear_regressor.
Arguments world A G : clear implicits.
Arguments history A : clear implicits.

(** ** evaluate_regression *)

Section evaluate.
Context {A : Type} `{Numeric A}.

(** The dict [{"R2": r_squared, "RMSE": rmse, "MAE": mae}]. *)
Definition evaluate_regression (y_true y_pred : list A) : result (gmap string A) :=
  let? d := broadcast nsub y_true y_pred in
  let rss := np_sum (np_square d) in
  let tss := np_sum (np_square (map (λ v, v - np_mean y_true)%np y_true)) in
  let r_squared := (1 - rss / tss)%np in
  let? k := py_one_over (length y_true) in
  let? d2 := broadcast nsub y_true y_pred in
  let mse := (k * np_sum (np_square d2))%np in
  let rmse := nsqrt mse in
  let? k' := py_one_over (length y_true) in
  let? d3 := broadcast nsub y_true y_pred in
  let mae := (k' * np_sum (map nabs d3))%np in
  Ok (<["MAE" := mae]> (<["RMSE" := rmse]> (<["R2" := r_squared]> ∅))).
End evaluate.

(** ** one_hot_encode *)

Section one_hot.
(** The cells of [X]: values with numpy's [==] and the order [np.unique]
    sorts by, any two of which compare (arrays on which they need not are
    in [object_array] below).  [cell_of_int] is the cast of an indicator
    [0] or [1] to the dtype of the stacked array. *)
Context {cell : Type} `{EqDecision cell}.
Context (cell_le : relation cell) `{!RelDecision cell_le}.
Context (cell_of_int : Z → cell).

(** [np.unique(c)]: the sorted distinct values. *)
Definition np_unique (c : list cell) : list cell :=
  merge_sort cell_le (remove_dups c).

(** [sorted(categorical_indices, reverse=True)] *)
Definition sorted_reverse (l : list nat) : list nat :=
  merge_sort (flip (≤)) l.

(** One entry of [(c == l).astype(int)]; [==] between two cells is
    equality, as it is between ints and between strings (a nan, which is
    not [==] to itself, is no cell of the model). *)
Definition indicator (c l : cell) : cell :=
  cell_of_int (if decide (c = l) then 1 else 0)%Z.

(** [(categorical_column[:, None] == unique_values).astype(int)] *)
Definition one_hot_block (categorical_column unique_values : list cell) : ndarray2 cell :=
  Mat (length unique_values)
      (map (λ c, map (indicator c) unique_values) categorical_column).

(** [np.hstack((X, Y, Z))] *)
Definition np_hstack3 (X Y Z : ndarray2 cell) : result (ndarray2 cell) :=
  let? XY := np_hstack X Y in
  np_hstack XY Z.

(** The heap of 2-D arrays the function runs in. *)
Definition new_array (X : ndarray2 cell) : M (gmap loc (ndarray2 cell)) loc := λ h,
  let l := fresh (dom h) in (Ok l, <[l := X]> h).

Definition array_at (l : loc) : M (gmap loc (ndarray2 cell)) (ndarray2 cell) :=
  gets (λ h, default (Mat 0 []) (h !! l)).

(** The body of the loop: [X_transformed] is rebound to a new array. *)
Definition encode_column (drop_first : bool) (X_transformed : loc) (index : nat)
    : M (gmap loc (ndarray2 cell)) loc :=
  let! X := array_at X_transformed in
  let! categorical_column := lift (column index X) in
  let unique_values := np_unique categorical_column in
  let unique_values := if drop_first then drop 1 unique_values else unique_values in
  let one_hot := one_hot_block categorical_column unique_values in
  let! D := lift (np_delete X index) in
  let! X_deleted := new_array D in
  let! D := array_at X_deleted in
  let! stacked := lift (np_hstack3 (cols_before index D) one_hot (cols_from index D)) in
  new_array stacked.

Fixpoint for_each (body : loc → nat → M (gmap loc (ndarray2 cell)) loc)
    (X_transformed : loc) (indices : list nat) : M (gmap loc (ndarray2 cell)) loc :=
  match indices with
  | [] => ret X_transformed
  | index :: rest =>
      let! X' := body X_transformed index in
      for_each body X' rest
  end.

Definition one_hot_encode (X : loc) (categorical_indices : list nat) (drop_first : bool)
    : M (gmap loc (ndarray2 cell)) loc :=
  let! X0 := array_at X in
  let! X_transformed := new_array X0 in
  for_each (encode_column drop_first) X_transformed (sorted_reverse categorical_indices).

(** *** The encoding as the specification words it *)

(** The values of column [j], top row first. *)
Definition column_values (j : nat) (X : ndarray2 cell) : list cell :=
  omap (λ r : list cell, r !! j) (rows X).

(** The labels of column [j]: its sorted distinct values, without the
    first one when [drop_first]. *)
Definition labels (X : ndarray2 cell) (drop_first : bool) (j : nat) : list cell :=
  let domain := np_unique (column_values j X) in
  if drop_first then drop 1 domain else domain.

(** What one cell of column [j] becomes. *)
Definition encode_cell (X : ndarray2 cell) (categorical_indices : list nat)
    (drop_first : bool) (j : nat) (c : cell) : list cell :=
  if decide (j ∈ categorical_indices) then map (indicator c) (labels X drop_first j)
  else [c].

(** How many output columns column [j] becomes. *)
Definition encoded_width (X : ndarray2 cell) (categorical_indices : list nat)
    (drop_first : bool) (j : nat) : nat :=
  if decide (j ∈ categorical_indices) then length (labels X drop_first j) else 1.

(** A row, encoded cell by cell; its first cell is column [start]. *)
Definition encode_row (X : ndarray2 cell) (categorical_indices : list nat)
    (drop_first : bool) (start : nat) (r : list cell) : list cell :=
  concat (imap (λ j, encode_cell X categorical_indices drop_first (start + j)) r).

Definition one_hot_spec (X : ndarray2 cell) (categorical_indices : list nat)
    (drop_first : bool) : ndarray2 cell :=
  Mat (sum_list_with (encoded_width X categorical_indices drop_first) (seq 0 (ncols X)))
      (map (encode_row X categorical_indices drop_first 0) (rows X)).

(** *** The loop body, array in and array out *)

(** The loop body as a function of the array it reads. *)
Definition encode_column_pure (drop_first : bool) (X : ndarray2 cell) (index : nat)
    : result (ndarray2 cell) :=
  let? categorical_column := column index X in
  let unique_values := np_unique categorical_column in
  let unique_values := if drop_first then drop 1 unique_values else unique_values in
  let? D := np_delete X index in
  np_hstack3 (cols_before index D)
             (one_hot_block categorical_column unique_values)
             (cols_from index D).

(** The row the loop body makes of [r]; [l] are the labels. *)
Definition splice (index : nat) (l : list cell) (r : list cell) : list cell :=
  take index r
  ++ match r !! index with
     | Some c => map (indicator c) l
     | None => []
     end
  ++ drop (S index) r.

(** *** The column count of the result *)




End one_hot.

(** *** Arrays of dtype [object]

    In the section above every two cells compare, as in an array of a
    numeric or a string dtype, and [np.unique] cannot raise.  The cells of
    an array of dtype [object] are Python values, and [a < b] raises
    [TypeError] between an int and a str: here [cell_le] relates the cells
    that compare, and [np.unique], which sorts the column, raises on a
    column that holds two cells related in neither direction.  The rest of
    the function is as above. *)

Module object_array.
Section one_hot.
Context {cell : Type} `{EqDecision cell}.
Context (cell_le : relation cell) `{!RelDecision cell_le}.
Context (cell_of_int : Z → cell).

(** Every two cells of [c] compare. *)
Definition comparable (c : list cell) : Prop :=
  Forall (λ a, Forall (λ b, cell_le a b ∨ cell_le b a) c) c.

(** [np.unique(c)]: the sorted distinct values; [TypeError] from the sort
    when two cells do not compare. *)
Definition np_unique (c : list cell) : result (list cell) :=
  if decide (comparable c) then Ok (merge_sort cell_le (remove_dups c))
  else Raise TypeError.

(** The body of the loop. *)
Definition encode_column (drop_first : bool) (X_transformed : loc) (index : nat)
    : M (gmap loc (ndarray2 cell)) loc :=
  let! X := array_at X_transformed in
  let! categorical_column := lift (column index X) in
  let! unique_values := lift (np_unique categorical_column) in
  let unique_values := if drop_first then drop 1 unique_values else unique_values in
  let one_hot := one_hot_block cell_of_int categorical_column unique_values in
  let! D := lift (np_delete X index) in
  let! X_deleted := new_array D in
  let! D := array_at X_deleted in
  let! stacked := lift (np_hstack3 (cols_before index D) one_hot (cols_from index D)) in
  new_array stacked.

Definition one_hot_encode (X : loc) (categorical_indices : list nat) (drop_first : bool)
    : M (gmap loc (ndarray2 cell)) loc :=
  let! X0 := array_at X in
  let! X_transformed := new_array X0 in
  for_each (encode_column drop_first) X_transformed (sorted_reverse categorical_indices).
End one_hot.
End object_array.

(** ** Concrete carriers, on which the model runs *)

(** The cells of an array of dtype [object] that holds ints and strings. *)
Inductive pyval : Type :=
  | PyInt (z : Z)
  | PyStr (s : string).

#[export] Instance pyval_eq_dec : EqDecision pyval.
Proof. solve_decision. Defined.

(** Ints by value, strings lexicographically; an int and a string do not
    compare ([<] between them raises [TypeError]). *)
Definition pyval_le (a b : pyval) : Prop :=
  match a, b with
  | PyInt x, PyInt y => (x ≤ y)%Z
  | PyStr s, PyStr t => String.leb s t = true
  | PyInt _, PyStr _ => False
  | PyStr _, PyInt _ => False
  end.

#[export] Instance pyval_le_dec : RelDecision pyval_le.
Proof. intros [x|s] [y|t]; simpl; apply _. Defined.

(** A generator that replays a fixed sequence of draws. *)
Definition replay (g : list float) : float * list float :=
  match g with
  | x :: g' => (x, g')
  | [] => (PrimFloat.zero, [])
  end.

(** The inverse of a 1x1 or 2x2 float matrix in closed form (enough to run
    a fit with one feature); [None] when the determinant is zero. *)
Definition inv_2x2 (X : ndarray2 float) : option (ndarray2 float) :=
  match rows X with
  | [[a]] =>
      if PrimFloat.eqb a 0 then None else Some (Mat 1 [[(1 / a)%float]])
  | [[a; b]; [c; d]] =>
      let det := (a * d - b * c)%float in
      if PrimFloat.eqb det 0 then None
      else Some (Mat 2 [[(d / det)%float; (- b / det)%float];
                        [(- c / det)%float; (a / det)%float]])
  | _ => None
  end.

(** The array [[1, "a"], [2, "b"], [3, "a"]]. *)
Definition example_X : ndarray2 pyval :=
  Mat 2 [[PyInt 1; PyStr "a"]; [PyInt 2; PyStr "b"]; [PyInt 3; PyStr "a"]].

(** The array [[1, "a"], [2, 7], [3, "a"]]: its second column holds strings
    and an int. *)
Definition mixed_X : ndarray2 pyval :=
  Mat 2 [[PyInt 1; PyStr "a"]; [PyInt 2; PyInt 7]; [PyInt 3; PyStr "a"]].

(** Two samples of the line [y = 1 + 2 x]. *)
Definition line_X : ndarray2 float := Mat 1 [[0]; [2]]%float.

Definition line_y : list float := [1; 5]%float.

(** A model on which no fit has run. *)
Definition fresh_model (g : list float) : world float (list float) :=
  World ∅ None None g [].

(** ** Definitions the statements use *)

Section statement_vocabulary.
Context {A : Type} `{Numeric A}.

(** [y_true - y_pred] for arrays of one length. *)
Definition residuals (y_true y_pred : list A) : list A :=
  zip_with nsub y_true y_pred.

(** The mean as [evaluate_regression] and the loss compute it:
    [1 / n * np.sum(v)]. *)
Definition mean_of (v : list A) : A :=
  (1 / of_int (Z.of_nat (length v)) * np_sum v)%np.

(** The arithmetic of zero that a perfect prediction relies on, for the
    factor [k = 1 / n]; all of it holds in float64 and in every field. *)
Definition zero_arith (k : A) : Prop :=
  (0 * 0 = 0 ∧ 0 + 0 = 0 ∧ 1 - 0 = 1 ∧ k * 0 = 0)%np
  ∧ nsqrt 0%np = 0%np ∧ nabs 0%np = 0%np.

(** [XᵗX]: entry [(i, j)] is the inner product of columns [i] and [j]. *)
Definition gram (X : ndarray2 A) : ndarray2 A :=
  let cols := columns_of (ncols X) (rows X) in
  Mat (ncols X) (map (λ ci, map (inner ci) cols) cols).

(** [(Xi Xᵗ) y], entry by entry: [Σ_k (Σ_j Xi[i][j] * X[k][j]) * y[k]]. *)
Definition normal_equation_weights (Xi X : ndarray2 A) (y : list A) : list A :=
  map (λ xi, inner (map (inner xi) (rows X)) y) (rows Xi).

(** *** Gradient descent, as the specification words it

    The parameters are the pair of [intercept] and the coefficient values;
    [X] is the bias-augmented matrix and [m] its row count. *)

(** [X · [intercept, coefficients]] *)
Definition gd_predictions (X : ndarray2 A) (b : A) (c : list A) : list A :=
  map (λ r, inner r (b :: c)) (rows X).

(** [predictions − y] *)
Definition gd_error (X : ndarray2 A) (y : list A) (b : A) (c : list A) : list A :=
  zip_with nsub (gd_predictions X b c) y.

(** [(1/m) · Xᵗ · error]: entry [j] is [(1/m) * Σ_i X[i][j] * error[i]]. *)
Definition gd_gradient (X : ndarray2 A) (y : list A) (b : A) (c : list A) : list A :=
  map (λ col, 1 / of_int (Z.of_nat (nrows X)) * inner col (gd_error X y b c))%np
      (columns_of (ncols X) (rows X)).

(** [(1/m) · Σ error²] *)
Definition gd_loss (X : ndarray2 A) (y : list A) (p : A * list A) : A :=
  (1 / of_int (Z.of_nat (nrows X)) * np_sum (np_square (gd_error X y p.1 p.2)))%np.

(** One update: [intercept − learning_rate × gradient[0]] and
    [coefficients − learning_rate × gradient[1:]], entry by entry. *)
Definition gd_update (X : ndarray2 A) (y : list A) (learning_rate : A)
    (p : A * list A) : A * list A :=
  match gd_gradient X y p.1 p.2 with
  | g0 :: gs =>
      ((p.1 - learning_rate * g0)%np,
       zip_with (λ cj gj, cj - learning_rate * gj)%np p.2 gs)
  | [] => p
  end.

(** The parameters after [k] updates. *)
Definition gd_params (X : ndarray2 A) (y : list A) (learning_rate : A)
    (p0 : A * list A) (k : nat) : A * list A :=
  Nat.iter k (gd_update X y learning_rate) p0.
End statement_vocabulary.

Section initial_parameters.
Context {A : Type} `{Numeric A} {G : Type} (random_rand : G → A * G).

(** [d] draws in a row. *)
Fixpoint draws (d : nat) (g : G) : list A * G :=
  match d with
  | O => ([], g)
  | S d' =>
      let (x, g1) := random_rand g in
      let (xs, g2) := draws d' g1 in
      (x :: xs, g2)
  end.

(** The parameters gradient descent starts from: [d] draws for the
    coefficients, then one for the intercept, each times [0.01]. *)
Definition gd_init (d : nat) (g : G) : (A * list A) * G :=
  let (r, g1) := draws d g in
  let (u, g2) := random_rand g1 in
  ((u * lit_0_01, map (λ x, x * lit_0_01) r)%np, g2).

(** The world after one pass of the loop body. *)
Definition after_step (X : ndarray2 A) (y : list A) (learning_rate : A)
    (epoch : nat) (l : loc) (p : A * list A) (w : world A G) : world A G :=
  let p' := gd_update X y learning_rate p in
  let hp := <[l := p'.2]> (heap w) in
  World (<[fresh (dom hp) := p'.2]> hp) (Some l) (Some p'.1) (rng w)
        (stdout w ++ (if decide (epoch `mod` 100 = 0) then [(epoch, gd_loss X y p)] else [])).
End initial_parameters.

Section initialisation.
Context {A : Type} `{Numeric A} {G : Type} (random_rand : G → A * G).

(** The world when the loop of [fit_gradient_descent] starts: a new array
    of [d] random coefficients, and a random intercept. *)
Definition initialised (d : nat) (w : world A G) : world A G :=
  let i := gd_init random_rand d (rng w) in
  let l := fresh (dom (heap w)) in
  World (<[l := i.1.2]> (heap w)) (Some l) (Some i.1.1) i.2 (stdout w).
End initialisation.

Section construction.
Context {A G : Type}.

(** [LinearRegressor()]: [__init__] binds both attributes to [None]. *)
Definition init : M (world A G) unit :=
  modify (λ w, World (heap w) None None (rng w) (stdout w)).
End construction.

Section indicator_rows.
Context {cell : Type} (cell_of_int : Z → cell).

(** The row [0 … 0 1 0 … 0] of length [n] with its one at [k]. *)
Definition one_hot_vector (n k : nat) : list cell :=
  <[k := cell_of_int 1]> (replicate n (cell_of_int 0)).
End indicator_rows.

(** * Verification *)

(** ** Running computations *)

Section monad_facts.
Context {S : Type}.

Lemma bind_ok {T U : Type} (c : M S T) (k : T → M S U) (s s' : S) (v : T) :
  c s = (Ok v, s') → bind c k s = k v s'.
Proof. unfold bind. by intros ->. Qed.

End monad_facts.

(** ** fit: dispatch on the method and on the shape of X *)

Section fit_dispatch.
Context {A : Type} `{Numeric A}.
Context (linalg_inv : ndarray2 A → option (ndarray2 A)).
Context {G : Type} (random_rand : G → A * G).

(** C7: with a method other than "least_squares" and "gradient_descent",
    [fit] raises [ValueError] before anything else happens: the state it
    leaves is the state it was called in, so [intercept] and
    [coefficients] are what they were ([None] on a model never fitted). *)
Theorem fit_invalid_method (X : ndarray A) (y : list A) (method : string)
    (learning_rate : A) (iterations : Z) (w : world A G) :
  method ≠ "least_squares" → method ≠ "gradient_descent" →
  fit linalg_inv random_rand X y method learning_rate iterations w
  = (Raise ValueError, w).
Proof.
  intros Hls Hgd. unfold fit.
  destruct (decide (method ∉ ["least_squares"; "gradient_descent"])) as [|Hin]; [done|].
  exfalso. apply Hin. rewrite !not_elem_of_cons.
  split_and!; [done|done|apply not_elem_of_nil].
Qed.

(** C8: on a model whose [coefficients] or [intercept] is [None],
    [predict] raises [ValueError] and leaves the state as it was. *)
Theorem predict_not_fitted (X : ndarray A) (w : world A G) :
  coefficients w = None ∨ intercept w = None →
  predict X w = (Raise ValueError, w).
Proof.
  unfold predict. intros [-> | ->]; [done|]. by destruct (coefficients w).
Qed.

(** C9: [fit] on a flat sequence [v] makes of it the matrix with one row
    [[x]] for each element [x] of [v], a single column; it prepends the
    column of ones to this matrix, which gives the rows [[1, x]], and hands
    the result to [fit_multiple] when the method is "least_squares" and to
    [fit_gradient_descent] when it is "gradient_descent", whose histories it
    returns.  With every method the call does what the call on the
    one-column matrix does. *)
Theorem fit_flat_sequence (v y : list A) (method : string)
    (learning_rate : A) (iterations : Z) :
  let X := reshape_column v in
  let X_with_bias := Mat 2 (map (λ x, [1; x]%np) v) in
  rows X = map (λ x, [x]) v
  ∧ nrows X = length v
  ∧ ncols X = 1
  ∧ rectangular X
  ∧ with_bias X = X_with_bias
  ∧ fit linalg_inv random_rand (Arr1 v) y "least_squares" learning_rate iterations
    = (fit_multiple linalg_inv X_with_bias y ;; ret None)
  ∧ fit linalg_inv random_rand (Arr1 v) y "gradient_descent" learning_rate iterations
    = (let! h := fit_gradient_descent random_rand X_with_bias y learning_rate iterations in
       ret (Some h))
  ∧ fit linalg_inv random_rand (Arr1 v) y method learning_rate iterations
    = fit linalg_inv random_rand (Arr2 X) y method learning_rate iterations.
Proof.
  intros X X_with_bias.
  assert (Hbias : with_bias X = X_with_bias).
  { unfold with_bias, X, X_with_bias, reshape_column. simpl. by rewrite map_map. }
  split_and!.
  - reflexivity.
  - unfold nrows. simpl. by rewrite length_map.
  - reflexivity.
  - unfold rectangular. simpl. by apply Forall_fmap, Forall_true.
  - exact Hbias.
  - unfold fit. rewrite decide_False; last first.
    { intros Hn. apply Hn, list_elem_of_here. }
    rewrite decide_True by done. fold X. by rewrite Hbias.
  - unfold fit. rewrite decide_False; last first.
    { intros Hn. apply Hn, list_elem_of_further, list_elem_of_here. }
    rewrite decide_False by done. rewrite decide_True by done. fold X. by rewrite Hbias.
  - reflexivity.
Qed.
End fit_dispatch.

Local Open Scope float_scope.

Lemma fit_invalid_method_witness :
  fit inv_2x2 replay (Arr1 [0; 1; 2]) [1; 3; 5] "ridge" 0.5 3 (fresh_model [0.5; 0.25])
  = (Raise ValueError, fresh_model [0.5; 0.25]).
Proof. apply fit_invalid_method; discriminate. Defined.

Lemma predict_not_fitted_witness :
  predict (Arr1 [0; 1; 2]) (fresh_model [0.5; 0.25])
  = (Raise ValueError, fresh_model [0.5; 0.25]).
Proof. apply predict_not_fitted. left. reflexivity. Defined.

Local Close Scope float_scope.

(** ** evaluate_regression *)

Section evaluate_facts.
Context {A : Type} `{Numeric A}.

Lemma broadcast_same_length (op : A → A → A) (u v : list A) :
  length u = length v → broadcast op u v = Ok (zip_with op u v).
Proof. intros Hl. unfold broadcast. by rewrite decide_True. Qed.

Lemma py_one_over_pos (m : nat) :
  1 ≤ m → py_one_over m = Ok (1 / of_int (Z.of_nat m))%np.
Proof. intros Hm. unfold py_one_over. rewrite decide_False; [done|lia]. Qed.

Lemma np_sum_zeros (v : list A) :
  (0 + 0 = 0)%np → Forall (λ x, x = 0%np) v → np_sum v = 0%np.
Proof.
  intros H00 Hv. unfold np_sum.
  induction Hv as [|x v -> _ IH]; simpl; [done|]. by rewrite H00.
Qed.

Lemma residuals_self (y : list A) :
  Forall (λ v, v - v = 0)%np y → Forall (λ x, x = 0%np) (residuals y y).
Proof.
  unfold residuals. induction 1 as [|v y Hv _ IH]; simpl; constructor; auto.
Qed.

Lemma np_square_zeros (v : list A) :
  (0 * 0 = 0)%np → Forall (λ x, x = 0%np) v → Forall (λ x, x = 0%np) (np_square v).
Proof.
  intros H00. unfold np_square.
  induction 1 as [|x v -> _ IH]; simpl; constructor; auto.
Qed.

Lemma map_nabs_zeros (v : list A) :
  nabs 0%np = 0%np → Forall (λ x, x = 0%np) v → Forall (λ x, x = 0%np) (map nabs v).
Proof.
  intros H00. induction 1 as [|x v -> _ IH]; simpl; constructor; auto.
Qed.

(** What the function returns on arrays of one length [n ≥ 1]. *)
Lemma evaluate_regression_value (y_true y_pred : list A) :
  length y_true = length y_pred → 1 ≤ length y_true →
  evaluate_regression y_true y_pred
  = let e := residuals y_true y_pred in
    Ok (<["MAE" := mean_of (map nabs e)]>
       (<["RMSE" := nsqrt (mean_of (np_square e))]>
       (<["R2" := (1 - np_sum (np_square e)
                       / np_sum (np_square (map (λ v, v - np_mean y_true) y_true)))%np]> ∅))).
Proof.
  intros Hlen Hpos. unfold evaluate_regression, mean_of, residuals.
  rewrite (broadcast_same_length _ _ _ Hlen), (py_one_over_pos _ Hpos). simpl.
  unfold np_square. by rewrite !length_map, length_zip_with, <- Hlen, Nat.min_id.
Qed.

(** C6 (amended): on float arrays of one length [n ≥ 1] the function
    returns a dict with exactly the keys "R2", "RMSE" and "MAE", holding
    [1 - Σe² / Σ(y_true - mean(y_true))²], [sqrt(mean(e²))] and
    [mean(|e|)] for [e = y_true - y_pred]; and when [y_pred] is [y_true]
    and every entry [v] has [v - v = 0] (it is finite), RMSE and MAE are
    exactly 0, and R2 is exactly 1 provided [0 / tss = 0] for the total sum
    of squares [tss] (it is a number other than zero). *)
Theorem evaluate_regression_metrics (y_true y_pred : list A) :
  length y_true = length y_pred → 1 ≤ length y_true →
  ∃ d : gmap string A,
    evaluate_regression y_true y_pred = Ok d
    ∧ dom d = {["R2"; "RMSE"; "MAE"]}
    ∧ (let e := residuals y_true y_pred in
       let tss := np_sum (np_square (map (λ v, v - np_mean y_true)%np y_true)) in
       d !! "R2" = Some (1 - np_sum (np_square e) / tss)%np
       ∧ d !! "RMSE" = Some (nsqrt (mean_of (np_square e)))
       ∧ d !! "MAE" = Some (mean_of (map nabs e))
       ∧ (y_pred = y_true →
          Forall (λ v, v - v = 0)%np y_true →
          zero_arith (1 / of_int (Z.of_nat (length y_true)))%np →
          d !! "RMSE" = Some 0%np ∧ d !! "MAE" = Some 0%np
          ∧ ((0 / tss = 0)%np → d !! "R2" = Some 1%np))).
Proof.
  intros Hlen Hpos. eexists. split; [by apply evaluate_regression_value|].
  split.
  { rewrite !dom_insert_L, dom_empty_L. set_solver. }
  cbv zeta.
  assert (HR2 : ∀ a b c : A,
    (<["MAE" := a]> (<["RMSE" := b]> (<["R2" := c]> (∅ : gmap string A)))) !! "R2" = Some c).
  { intros. do 2 (rewrite lookup_insert_ne by done). by rewrite lookup_insert_eq. }
  assert (HRMSE : ∀ a b c : A,
    (<["MAE" := a]> (<["RMSE" := b]> (<["R2" := c]> (∅ : gmap string A)))) !! "RMSE" = Some b).
  { intros. rewrite lookup_insert_ne by done. by rewrite lookup_insert_eq. }
  assert (HMAE : ∀ a b c : A,
    (<["MAE" := a]> (<["RMSE" := b]> (<["R2" := c]> (∅ : gmap string A)))) !! "MAE" = Some a).
  { intros. by rewrite lookup_insert_eq. }
  rewrite HR2, HRMSE, HMAE. split_and!; [done..|].
  intros -> Hfin ([H00 [Hadd [H10 Hk0]]] & Hsqrt & Habs).
  pose proof (residuals_self _ Hfin) as He.
  assert (Hsq : np_sum (np_square (residuals y_true y_true)) = 0%np).
  { apply np_sum_zeros; [done|]. by apply np_square_zeros. }
  assert (Hab : np_sum (map nabs (residuals y_true y_true)) = 0%np).
  { apply np_sum_zeros; [done|]. by apply map_nabs_zeros. }
  unfold mean_of. rewrite Hsq, Hab.
  unfold np_square, residuals.
  rewrite !length_map, length_zip_with, Nat.min_id, Hk0, Hsqrt.
  split_and!; [done..|]. intros Hdiv. by rewrite Hdiv, H10.
Qed.
End evaluate_facts.

Local Open Scope float_scope.

Lemma evaluate_regression_metrics_witness :
  ∃ d : gmap string float,
    evaluate_regression [1; 2; 3] [1; 2; 3] = Ok d
    ∧ dom d = {["R2"; "RMSE"; "MAE"]}
    ∧ d !! "R2" = Some 1 ∧ d !! "RMSE" = Some 0 ∧ d !! "MAE" = Some 0.
Proof.
  destruct (evaluate_regression_metrics [1; 2; 3] [1; 2; 3])
    as (d & Hd & Hdom & _ & _ & _ & Hperfect); [reflexivity | simpl; lia |].
  exists d. split; [exact Hd|]. split; [exact Hdom|].
  destruct Hperfect as (Hrmse & Hmae & Hr2).
  - reflexivity.
  - repeat constructor.
  - repeat split.
  - split_and!; [apply Hr2; reflexivity | exact Hrmse | exact Hmae].
Defined.

(** C6, as stated, fails in float64: [y_true = [0, 2^-600]] is not constant,
    but the squares of its deviations from the mean underflow to zero, so
    that R2 is [1 - 0/0 = nan] on a perfect prediction. *)
Lemma evaluate_regression_underflow :
  (0x1p-600 ≠ 0)
  ∧ ∃ d : gmap string float,
      evaluate_regression [0; 0x1p-600] [0; 0x1p-600] = Ok d
      ∧ d !! "R2" = Some nan
      ∧ d !! "R2" ≠ Some 1.
Proof.
  split.
  { intros Heq. apply (f_equal (PrimFloat.ltb 0)) in Heq. vm_compute in Heq. discriminate. }
  eexists. split; [vm_compute; reflexivity|].
  split; [vm_compute; reflexivity|].
  intros Heq.
  apply (f_equal (λ o, match o with Some x => PrimFloat.is_nan x | None => false end)) in Heq.
  vm_compute in Heq. discriminate.
Qed.

Local Close Scope float_scope.

(** ** Transposition *)

Section transposition.
Context {T : Type}.

Lemma columns_of_length (n : nat) (rs : list (list T)) :
  Forall (λ r, length r = n) rs → length (columns_of n rs) = n.
Proof.
  induction 1 as [|r rs Hr _ IH]; simpl.
  - apply length_replicate.
  - rewrite length_zip_with. lia.
Qed.

Lemma columns_of_zero (rs : list (list T)) : columns_of 0 rs = [].
Proof. induction rs as [|r rs IH]; simpl; [done|]. rewrite IH. by destruct r. Qed.

Lemma columns_of_cons_column (k : nat) (r : list T) (C : list (list T)) :
  length r = length C →
  columns_of (S k) (zip_with cons r C) = r :: columns_of k C.
Proof.
  revert r. induction C as [|c C IH]; intros [|x r] Hl; simpl in *; try done.
  rewrite IH by lia. done.
Qed.

(** Transposing twice gives the rows back. *)
Lemma columns_of_involutive (n : nat) (rs : list (list T)) :
  Forall (λ r, length r = n) rs →
  columns_of (length rs) (columns_of n rs) = rs.
Proof.
  induction 1 as [|r rs Hr Hrs IH]; simpl.
  - apply columns_of_zero.
  - rewrite columns_of_cons_column, IH; [done|].
    by rewrite columns_of_length.
Qed.
End transposition.

(** ** fit by least squares *)

Section least_squares.
Context {A : Type} `{Numeric A}.
Context (linalg_inv : ndarray2 A → option (ndarray2 A)).
Context {G : Type} (random_rand : G → A * G).

Lemma with_bias_rectangular (X : ndarray2 A) :
  rectangular X → rectangular (with_bias X).
Proof.
  unfold rectangular. simpl. intros HX.
  apply Forall_fmap. eapply Forall_impl; [exact HX|]. simpl. auto.
Qed.

Lemma np_dot_mm_transpose (X : ndarray2 A) :
  np_dot_mm (np_transpose X) X = Ok (gram X).
Proof. unfold np_dot_mm. simpl. by rewrite decide_True. Qed.

(** The product [(Xi Xᵗ) y] as [np.dot] computes it. *)
Lemma np_dot_normal_equation (Xi X : ndarray2 A) (y : list A) :
  rectangular X → ncols Xi = ncols X → length y = nrows X →
  (let? P := np_dot_mm Xi (np_transpose X) in np_dot_mv P y)
  = Ok (normal_equation_weights Xi X y).
Proof.
  intros HX Hc Hy. unfold np_dot_mm.
  rewrite decide_True; last first.
  { unfold nrows. simpl. by rewrite columns_of_length. }
  simpl. unfold np_dot_mv. simpl. rewrite decide_True by by unfold nrows.
  unfold normal_equation_weights, nrows.
  by rewrite map_map, (columns_of_involutive _ _ HX).
Qed.

Lemma fit_multiple_run (X : ndarray2 A) (y : list A) (Xi : ndarray2 A)
    (w0 : A) (ws : list A) (w : world A G) :
  rectangular X → length y = nrows X →
  linalg_inv (gram X) = Some Xi → ncols Xi = ncols X →
  normal_equation_weights Xi X y = w0 :: ws →
  fit_multiple linalg_inv X y w
  = (Ok tt, World (<[fresh (dom (heap w)) := ws]> (heap w))
                  (Some (fresh (dom (heap w)))) (Some w0) (rng w) (stdout w)).
Proof.
  intros HX Hy Hinv Hc Hw. unfold fit_multiple, bind, lift.
  rewrite np_dot_mm_transpose, Hinv.
  pose proof (np_dot_normal_equation Xi X y HX Hc Hy) as Hdot.
  destruct (np_dot_mm Xi (np_transpose X)) as [P|e] eqn:HP; [|done].
  simpl in Hdot. rewrite Hdot, Hw. reflexivity.
Qed.

(** C1: on a rectangular [X] and a [y] with one entry per row, when
    [np.linalg.inv] inverts [XᵗX] of the bias-augmented matrix (returning
    [Xi], of the shape of its argument), [fit] with "least_squares"
    computes the weights [(Xi Xᵗ) y] on the bias-augmented matrix, binds
    [intercept] to the first weight and [coefficients] to a new array
    holding the other weights, one per column of [X] in order, changes
    nothing else, and returns [None]. *)
Theorem fit_least_squares (X : ndarray2 A) (y : list A) (Xi : ndarray2 A)
    (learning_rate : A) (iterations : Z) (w : world A G) :
  rectangular X → length y = nrows X →
  linalg_inv (gram (with_bias X)) = Some Xi →
  nrows Xi = S (ncols X) → ncols Xi = S (ncols X) →
  ∃ (w0 : A) (ws : list A),
    normal_equation_weights Xi (with_bias X) y = w0 :: ws
    ∧ length ws = ncols X
    ∧ heap w !! fresh (dom (heap w)) = None
    ∧ fit linalg_inv random_rand (Arr2 X) y "least_squares" learning_rate iterations w
      = (Ok None, World (<[fresh (dom (heap w)) := ws]> (heap w))
                        (Some (fresh (dom (heap w)))) (Some w0) (rng w) (stdout w)).
Proof.
  intros HX Hy Hinv Hr Hc.
  destruct (normal_equation_weights Xi (with_bias X) y) as [|w0 ws] eqn:Hw.
  { apply (f_equal length) in Hw. unfold normal_equation_weights in Hw.
    rewrite length_map in Hw. unfold nrows in Hr. simpl in Hw. lia. }
  exists w0, ws. split; [done|]. split.
  { apply (f_equal length) in Hw. unfold normal_equation_weights in Hw.
    rewrite length_map in Hw. unfold nrows in Hr. simpl in Hw. lia. }
  split.
  { apply not_elem_of_dom, is_fresh. }
  unfold fit. rewrite decide_False; last first.
  { intros Hn. apply Hn. apply list_elem_of_here. }
  rewrite decide_True by done.
  erewrite bind_ok; [reflexivity|].
  apply fit_multiple_run with (Xi := Xi); try done.
  - by apply with_bias_rectangular.
  - unfold nrows in *. simpl. by rewrite length_map.
Qed.
End least_squares.

Local Open Scope float_scope.

(** The line through (0, 1) and (2, 5): intercept 1, slope 2. *)
Lemma fit_least_squares_witness :
  fit inv_2x2 replay (Arr2 (Mat 1 [[0]; [2]])) [1; 5] "least_squares" 0.5 3 (fresh_model [])
  = (Ok None, World (<[0%nat := [2]]> ∅) (Some 0%nat) (Some 1) [] []).
Proof.
  destruct (fit_least_squares inv_2x2 replay (Mat 1 [[0]; [2]]) [1; 5]
              (Mat 2 [[1; -0.5]; [-0.5; 0.5]]) 0.5 3 (fresh_model []))
    as (w0 & ws & Hw & _ & _ & Hfit).
  - repeat constructor.
  - reflexivity.
  - vm_compute. reflexivity.
  - reflexivity.
  - reflexivity.
  - rewrite Hfit. vm_compute in Hw. injection Hw as <- <-.
    vm_compute. reflexivity.
Defined.

Local Close Scope float_scope.

(** ** fit by gradient descent *)

Local Arguments Nat.modulo : simpl never.

Section gradient_descent_facts.
Context {A : Type} `{Numeric A}.
Context {G : Type} (random_rand : G → A * G).

Lemma gd_gradient_length (X : ndarray2 A) (y : list A) (b : A) (c : list A) :
  rectangular X → length (gd_gradient X y b c) = ncols X.
Proof. intros HX. unfold gd_gradient. by rewrite length_map, columns_of_length. Qed.

Lemma gd_error_length (X : ndarray2 A) (y : list A) (b : A) (c : list A) :
  length y = nrows X → length (gd_error X y b c) = nrows X.
Proof.
  intros Hy. unfold gd_error, gd_predictions, nrows in *.
  rewrite length_zip_with, length_map. lia.
Qed.

Lemma gd_step_run (X : ndarray2 A) (y : list A) (learning_rate : A)
    (epoch : nat) (h : history A) (w : world A G) (l : loc) (p : A * list A) :
  rectangular X → ncols X = S (length p.2) →
  length y = nrows X → 1 ≤ nrows X →
  intercept w = Some p.1 → coefficients w = Some l → heap w !! l = Some p.2 →
  gd_step X y learning_rate (length y) epoch h w
  = (Ok (History (loss_history h ++ [gd_loss X y p])
                 (b_history h ++ [(gd_update X y learning_rate p).1])
                 (w_history h
                  ++ [fresh (dom (<[l := (gd_update X y learning_rate p).2]> (heap w)))])),
     after_step X y learning_rate epoch l p w).
Proof.
  destruct p as [b c]. simpl. intros HX Hc Hy Hm Hb Hl Hh.
  unfold gd_step, bind, lift, get_intercept, get_coefficients, load, gets.
  rewrite Hb, Hl, Hh. simpl.
  unfold np_dot_mv at 1. rewrite decide_True by done.
  fold (gd_predictions X b c).
  rewrite broadcast_same_length; last first.
  { unfold gd_predictions, nrows in *. by rewrite length_map. }
  fold (gd_error X y b c).
  rewrite py_one_over_pos by lia.
  unfold np_dot_mv. simpl. rewrite decide_True; last first.
  { by rewrite gd_error_length. }
  unfold np_scale at 1 2 3. rewrite map_map. rewrite Hy.
  fold (gd_gradient X y b c).
  unfold after_step, gd_update, gd_loss. simpl.
  pose proof (gd_gradient_length X y b c HX) as Hg.
  destruct (gd_gradient X y b c) as [|g0 gs]; simpl in *; [lia|].
  unfold isub. rewrite decide_True; last first.
  { unfold np_scale. rewrite length_map, drop_0. lia. }
  unfold np_scale. rewrite drop_0, zip_with_fmap_r. simpl. rewrite Hl.
  destruct (decide (epoch `mod` 100 = 0)); unfold print, modify, ret; simpl; [done|].
  by rewrite app_nil_r.
Qed.

Lemma gd_update_length (X : ndarray2 A) (y : list A) (learning_rate : A) (p : A * list A) :
  rectangular X → ncols X = S (length p.2) →
  length (gd_update X y learning_rate p).2 = length p.2.
Proof.
  intros HX Hc. unfold gd_update.
  pose proof (gd_gradient_length X y p.1 p.2 HX) as Hg.
  destruct (gd_gradient X y p.1 p.2) as [|g0 gs]; simpl in *; [done|].
  rewrite length_zip_with. lia.
Qed.

Lemma gd_params_shift (X : ndarray2 A) (y : list A) (learning_rate : A)
    (p : A * list A) (k : nat) :
  gd_params X y learning_rate (gd_update X y learning_rate p) k
  = gd_params X y learning_rate p (S k).
Proof. unfold gd_params. by rewrite Nat.iter_succ_r. Qed.

(** The loop, from a state whose parameters are [p]: what it returns and
    the state it leaves. *)
Lemma gd_loop_run (X : ndarray2 A) (y : list A) (learning_rate : A) (n : nat) :
  ∀ (epoch : nat) (h : history A) (w : world A G) (l : loc) (p : A * list A),
  rectangular X → ncols X = S (length p.2) →
  length y = nrows X → 1 ≤ nrows X →
  intercept w = Some p.1 → coefficients w = Some l → heap w !! l = Some p.2 →
  ∃ (h' : history A) (w' : world A G) (locs : list loc),
    gd_loop X y learning_rate (length y) n epoch h w = (Ok h', w')
    ∧ loss_history h'
      = loss_history h ++ map (λ k, gd_loss X y (gd_params X y learning_rate p k)) (seq 0 n)
    ∧ b_history h'
      = b_history h ++ map (λ k, (gd_params X y learning_rate p (S k)).1) (seq 0 n)
    ∧ w_history h' = w_history h ++ locs
    ∧ length locs = n
    ∧ NoDup locs
    ∧ (∀ s, s ∈ locs → s ∉ dom (heap w))
    ∧ (∀ k s, locs !! k = Some s →
         heap w' !! s = Some (gd_params X y learning_rate p (S k)).2)
    ∧ intercept w' = Some (gd_params X y learning_rate p n).1
    ∧ coefficients w' = Some l
    ∧ heap w' !! l = Some (gd_params X y learning_rate p n).2
    ∧ (∀ s, s ∈ dom (heap w) → s ≠ l → heap w' !! s = heap w !! s)
    ∧ rng w' = rng w.
Proof.
  induction n as [|n IH]; intros epoch h w l p HX Hc Hy Hm Hb Hl Hh.
  { exists h, w, []. simpl. rewrite !app_nil_r.
    split_and!; try done; [apply NoDup_nil_2 | by intros s ?%elem_of_nil]. }
  simpl. erewrite bind_ok by (by eapply gd_step_run).
  set (p1 := gd_update X y learning_rate p).
  set (s1 := fresh (dom (<[l := p1.2]> (heap w)))).
  assert (Hs1 : s1 ∉ dom (<[l := p1.2]> (heap w))) by apply is_fresh.
  assert (Hs1l : s1 ≠ l).
  { intros ->. apply Hs1. rewrite dom_insert_L, elem_of_union, elem_of_singleton. by left. }
  assert (Hs1w : s1 ∉ dom (heap w)).
  { intros Hin. apply Hs1. rewrite dom_insert_L, elem_of_union. by right. }
  destruct (IH (S epoch)
              (History (loss_history h ++ [gd_loss X y p])
                       (b_history h ++ [p1.1]) (w_history h ++ [s1]))
              (after_step X y learning_rate epoch l p w) l p1)
    as (h' & w' & locs & Hrun & Hloss & Hbs & Hws & Hlen & Hnd & Hfresh & Hsnap
        & Hb' & Hl' & Hh' & Hframe & Hrng); try done.
  { unfold p1. by rewrite gd_update_length. }
  { unfold after_step. simpl. fold p1. fold s1.
    by rewrite lookup_insert_ne, lookup_insert_eq. }
  assert (Hdom1 : ∀ s, s ∈ dom (heap (after_step X y learning_rate epoch l p w))
                       ↔ s = s1 ∨ s = l ∨ s ∈ dom (heap w)).
  { intros s. unfold after_step. simpl. fold p1. fold s1.
    by rewrite !dom_insert_L, !elem_of_union, !elem_of_singleton. }
  exists h', w', (s1 :: locs). rewrite Hrun. split; [done|].
  simpl in Hloss, Hbs, Hws. split_and!.
  - rewrite Hloss, <- app_assoc. f_equal. simpl. f_equal.
    rewrite <- fmap_S_seq, <- list_fmap_compose.
    apply list_fmap_ext. intros ? k _. simpl. unfold p1. by rewrite gd_params_shift.
  - rewrite Hbs, <- app_assoc. f_equal. simpl. f_equal.
    rewrite <- fmap_S_seq, <- list_fmap_compose.
    apply list_fmap_ext. intros ? k _. simpl. unfold p1. by rewrite gd_params_shift.
  - by rewrite Hws, <- app_assoc.
  - simpl. by rewrite Hlen.
  - constructor; [|done]. intros Hin. apply (Hfresh _ Hin), Hdom1. by left.
  - intros s [->|Hin]%elem_of_cons; [done|].
    intros Hd. apply (Hfresh _ Hin), Hdom1. by right; right.
  - intros [|k] s Hk; simpl in Hk.
    + injection Hk as <-. rewrite Hframe; [|apply Hdom1; by left|done].
      unfold after_step. simpl. fold p1. fold s1. by rewrite lookup_insert_eq.
    + rewrite (Hsnap _ _ Hk). unfold p1. by rewrite gd_params_shift.
  - rewrite Hb'. unfold p1. by rewrite gd_params_shift.
  - done.
  - rewrite Hh'. unfold p1. by rewrite gd_params_shift.
  - intros s Hs Hsl. rewrite Hframe; [|apply Hdom1; by right; right|done].
    unfold after_step. simpl. fold p1. fold s1.
    rewrite !lookup_insert_ne; [done|done|]. by intros ->.
  - by rewrite Hrng.
Qed.

Lemma np_random_draws_run (d : nat) (w : world A G) :
  np_random_draws random_rand d w
  = (Ok (draws random_rand d (rng w)).1,
     World (heap w) (coefficients w) (intercept w)
           (draws random_rand d (rng w)).2 (stdout w)).
Proof.
  revert w. induction d as [|d IH]; intros w; simpl.
  { by destruct w. }
  unfold bind, np_random_rand1.
  destruct (random_rand (rng w)) as [x g1]. rewrite IH. simpl.
  by destruct (draws random_rand d g1).
Qed.

Lemma draws_length (d : nat) (g : G) : length (draws random_rand d g).1 = d.
Proof.
  revert g. induction d as [|d IH]; intros g; simpl; [done|].
  destruct (random_rand g) as [x g1]. specialize (IH g1).
  destruct (draws random_rand d g1). simpl in *. by rewrite IH.
Qed.

(** [fit_gradient_descent] on a matrix with at least the bias column and at
    least one row, and one target per row. *)
Lemma fit_gradient_descent_run (X : ndarray2 A) (y : list A) (learning_rate : A)
    (iterations : Z) (w : world A G) :
  rectangular X → 1 ≤ ncols X → length y = nrows X → 1 ≤ nrows X →
  ∃ (h : history A) (w' : world A G),
    fit_gradient_descent random_rand X y learning_rate iterations w = (Ok h, w')
    ∧ let n := Z.to_nat iterations in
      let p := gd_params X y learning_rate (gd_init random_rand (ncols X - 1) (rng w)).1 in
      let l := fresh (dom (heap w)) in
      loss_history h = map (λ k, gd_loss X y (p k)) (seq 0 n)
      ∧ b_history h = map (λ k, (p (S k)).1) (seq 0 n)
      ∧ length (w_history h) = n
      ∧ NoDup (w_history h)
      ∧ (l ∉ w_history h)
      ∧ (∀ s, s ∈ w_history h → heap w !! s = None)
      ∧ (∀ k s, w_history h !! k = Some s → heap w' !! s = Some (p (S k)).2)
      ∧ intercept w' = Some (p n).1
      ∧ coefficients w' = Some l
      ∧ heap w' !! l = Some (p n).2
      ∧ (∀ s, s ∈ dom (heap w) → heap w' !! s = heap w !! s)
      ∧ rng w' = (gd_init random_rand (ncols X - 1) (rng w)).2.
Proof.
  intros HX Hc Hy Hm. unfold fit_gradient_descent, np_random_rand.
  rewrite decide_False by lia.
  replace (Z.to_nat (Z.of_nat (ncols X) - 1)) with (ncols X - 1) by lia.
  unfold bind at 1. rewrite np_random_draws_run.
  pose proof (draws_length (ncols X - 1) (rng w)) as Hlen.
  unfold gd_init.
  destruct (draws random_rand (ncols X - 1) (rng w)) as [r g1]. simpl in Hlen.
  unfold bind, alloc, set_coefficients, set_intercept, modify, np_random_rand1. simpl.
  destruct (random_rand g1) as [u g2]. simpl.
  set (l := fresh (dom (heap w))).
  assert (Hl : l ∉ dom (heap w)) by apply is_fresh.
  set (p0 := ((u * lit_0_01)%np, map (λ x, (x * lit_0_01)%np) r)).
  destruct (gd_loop_run X y learning_rate (Z.to_nat iterations) 0 (History [] [] [])
              (World (<[l := p0.2]> (heap w)) (Some l) (Some p0.1) g2 (stdout w)) l p0)
    as (h' & w' & locs & Hrun & Hloss & Hbs & Hws & Hn & Hnd & Hfresh & Hsnap
        & Hb' & Hl' & Hh' & Hframe & Hrng); try done.
  { simpl. rewrite length_map. lia. }
  { simpl. by rewrite lookup_insert_eq. }
  simpl in *. exists h', w'. split; [exact Hrun|].
  assert (Hdom : ∀ s, s ∈ locs → s ≠ l ∧ s ∉ dom (heap w)).
  { intros s Hs. specialize (Hfresh s Hs).
    rewrite dom_insert_L, elem_of_union, elem_of_singleton in Hfresh.
    split; intros ?; apply Hfresh; auto. }
  rewrite Hws. split_and!; try done.
  - intros Hin. by destruct (Hdom _ Hin).
  - intros s Hs. apply not_elem_of_dom. by apply Hdom.
  - intros s Hs. rewrite Hframe.
    + apply lookup_insert_ne. by intros ->.
    + rewrite dom_insert_L, elem_of_union. by right.
    + by intros ->.
Qed.
End gradient_descent_facts.

Section gradient_descent_properties.
Context {A : Type} `{Numeric A}.
Context {G : Type} (random_rand : G → A * G).

(** C2: on a bias-augmented [X] with [m ≥ 1] rows and one target per row,
    every iteration of [fit_gradient_descent] applies [gd_update] to the
    parameters the previous iteration left (the random initial ones for the
    first): with predictions [X · [intercept, coefficients]], error
    [predictions − y] and gradient [(1/m) · Xᵗ · error], the new intercept is
    [intercept − learning_rate × gradient[0]] and the new coefficients are
    [coefficients − learning_rate × gradient[1:]] entry by entry.  The
    parameters after iteration [k] are the [k]-th entries of the intercept
    and coefficient histories, and the last ones are those of the model. *)
Theorem fit_gradient_descent_updates (X : ndarray2 A) (y : list A)
    (learning_rate : A) (iterations : Z) (w : world A G) :
  rectangular X → 1 ≤ ncols X → length y = nrows X → 1 ≤ nrows X →
  ∃ (h : history A) (w' : world A G) (l : loc),
    fit_gradient_descent random_rand X y learning_rate iterations w = (Ok h, w')
    ∧ let p := gd_params X y learning_rate
                 (gd_init random_rand (ncols X - 1) (rng w)).1 in
      (∀ k, k < Z.to_nat iterations →
         ∃ s, b_history h !! k = Some (gd_update X y learning_rate (p k)).1
              ∧ w_history h !! k = Some s
              ∧ heap w' !! s = Some (gd_update X y learning_rate (p k)).2)
      ∧ intercept w' = Some (p (Z.to_nat iterations)).1
      ∧ coefficients w' = Some l
      ∧ heap w' !! l = Some (p (Z.to_nat iterations)).2.
Proof.
  intros HX Hc Hy Hm.
  destruct (fit_gradient_descent_run random_rand X y learning_rate iterations w)
    as (h & w' & Hrun & Hloss & Hbs & Hn & Hnd & Hl & Hfresh & Hsnap
        & Hb' & Hl' & Hh' & Hframe & Hrng); try done.
  exists h, w', (fresh (dom (heap w))). split; [exact Hrun|].
  cbv zeta. split_and!; try done.
  intros k Hk.
  destruct (lookup_lt_is_Some_2 (w_history h) k) as [s Hs]; [lia|].
  exists s. split_and!; [|done|].
  - rewrite Hbs, list_lookup_fmap, lookup_seq_lt by done. done.
  - rewrite (Hsnap _ _ Hs). done.
Qed.

(** C3 (amended): on a bias-augmented [X] with at least one row and one
    target per row, and for every [iterations] (none are run when it is not
    positive), [fit_gradient_descent] runs the loop body exactly
    [iterations] times, whatever the loss, and returns three histories of
    that length whose [k]-th entries are the loss before update [k+1], and
    the intercept and coefficients after it.  Each coefficient entry is an
    array of its own: not the live array of the model, not one that existed
    before the call, no two the same; it still holds the coefficients of its
    iteration when the call returns, while the live array holds the last
    ones. *)
Theorem fit_gradient_descent_histories (X : ndarray2 A) (y : list A)
    (learning_rate : A) (iterations : Z) (w : world A G) :
  rectangular X → 1 ≤ ncols X → length y = nrows X → 1 ≤ nrows X →
  ∃ (h : history A) (w' : world A G) (l : loc),
    fit_gradient_descent random_rand X y learning_rate iterations w = (Ok h, w')
    ∧ let n := Z.to_nat iterations in
      let p := gd_params X y learning_rate
                 (gd_init random_rand (ncols X - 1) (rng w)).1 in
      length (loss_history h) = n
      ∧ length (b_history h) = n
      ∧ length (w_history h) = n
      ∧ (∀ k, k < n →
           loss_history h !! k = Some (gd_loss X y (p k))
           ∧ b_history h !! k = Some (p (S k)).1
           ∧ ∃ s, w_history h !! k = Some s ∧ heap w' !! s = Some (p (S k)).2)
      ∧ coefficients w' = Some l
      ∧ heap w' !! l = Some (p n).2
      ∧ (l ∉ w_history h)
      ∧ NoDup (w_history h)
      ∧ (∀ s, s ∈ w_history h → heap w !! s = None).
Proof.
  intros HX Hc Hy Hm.
  destruct (fit_gradient_descent_run random_rand X y learning_rate iterations w)
    as (h & w' & Hrun & Hloss & Hbs & Hn & Hnd & Hl & Hfresh & Hsnap
        & Hb' & Hl' & Hh' & Hframe & Hrng); try done.
  exists h, w', (fresh (dom (heap w))). split; [exact Hrun|].
  cbv zeta. split_and!; try done.
  - by rewrite Hloss, length_map, length_seq.
  - by rewrite Hbs, length_map, length_seq.
  - intros k Hk. split_and!.
    + rewrite Hloss, list_lookup_fmap, lookup_seq_lt by done. done.
    + rewrite Hbs, list_lookup_fmap, lookup_seq_lt by done. done.
    + destruct (lookup_lt_is_Some_2 (w_history h) k) as [s Hs]; [lia|].
      exists s. split; [done|]. by apply Hsnap.
Qed.
End gradient_descent_properties.

Local Open Scope float_scope.

Lemma fit_gradient_descent_updates_witness :
  ∃ (h : history float) (w' : world float (list float)) (l : loc),
    fit_gradient_descent replay (with_bias line_X) line_y 0.5 2 (fresh_model [0.5; 0.25])
    = (Ok h, w')
    ∧ let p := gd_params (with_bias line_X) line_y 0.5
                 (gd_init replay 1 [0.5; 0.25]).1 in
      (∀ k, (k < 2)%nat →
         ∃ s, b_history h !! k = Some (gd_update (with_bias line_X) line_y 0.5 (p k)).1
              ∧ w_history h !! k = Some s
              ∧ heap w' !! s = Some (gd_update (with_bias line_X) line_y 0.5 (p k)).2)
      ∧ intercept w' = Some (p 2%nat).1
      ∧ coefficients w' = Some l
      ∧ heap w' !! l = Some (p 2%nat).2.
Proof.
  apply (fit_gradient_descent_updates replay (with_bias line_X) line_y 0.5 2
           (fresh_model [0.5; 0.25])).
  - repeat constructor.
  - vm_compute. lia.
  - reflexivity.
  - vm_compute. lia.
Defined.

Lemma fit_gradient_descent_histories_witness :
  ∃ (h : history float) (w' : world float (list float)) (l : loc),
    fit_gradient_descent replay (with_bias line_X) line_y 0.5 2 (fresh_model [0.5; 0.25])
    = (Ok h, w')
    ∧ let p := gd_params (with_bias line_X) line_y 0.5
                 (gd_init replay 1 [0.5; 0.25]).1 in
      length (loss_history h) = 2%nat
      ∧ length (b_history h) = 2%nat
      ∧ length (w_history h) = 2%nat
      ∧ (∀ k, (k < 2)%nat →
           loss_history h !! k = Some (gd_loss (with_bias line_X) line_y (p k))
           ∧ b_history h !! k = Some (p (S k)).1
           ∧ ∃ s, w_history h !! k = Some s ∧ heap w' !! s = Some (p (S k)).2)
      ∧ coefficients w' = Some l
      ∧ heap w' !! l = Some (p 2%nat).2
      ∧ (l ∉ w_history h)
      ∧ NoDup (w_history h)
      ∧ (∀ s, s ∈ w_history h → heap (fresh_model [0.5; 0.25]) !! s = None).
Proof.
  apply (fit_gradient_descent_histories replay (with_bias line_X) line_y 0.5 2
           (fresh_model [0.5; 0.25])).
  - repeat constructor.
  - vm_compute. lia.
  - reflexivity.
  - vm_compute. lia.
Defined.

(** C3, as stated, fails on a data set with no rows: the first pass of the
    loop raises [ZeroDivisionError] at [1 / m], and nothing is returned. *)
Lemma fit_gradient_descent_no_rows :
  ∃ w' : world float (list float),
    fit_gradient_descent replay (with_bias (Mat 0 [])) [] 0.5 1 (fresh_model [0.5])
    = (Raise ZeroDivisionError, w').
Proof. eexists. vm_compute. reflexivity. Qed.

Local Close Scope float_scope.

(** ** one_hot_encode *)

Section one_hot_facts.
Context {cell : Type} `{EqDecision cell}.
Context (cell_le : relation cell) `{!RelDecision cell_le}.
Context (cell_of_int : Z → cell).

Lemma column_in_range (j : nat) (X : ndarray2 cell) :
  j < ncols X → Forall (λ r, j < length r) (rows X) →
  column j X = Ok (column_values j X).
Proof.
  intros Hj Hrows. unfold column, column_values. rewrite decide_True by done.
  induction Hrows as [|r rs Hr _ IH]; [done|].
  destruct (lookup_lt_is_Some_2 r j Hr) as [c Hc].
  simpl. rewrite Hc. simpl.
  destruct (mapM (λ r0 : list cell, r0 !! j) rs) as [cs|]; [|done].
  simpl. by injection IH as ->.
Qed.

Lemma hstack3_splice (i : nat) (l : list cell) (rs : list (list cell)) :
  Forall (λ r, i < length r) rs →
  zip_with app
    (zip_with app (map (take i) (map (λ r, take i r ++ drop (S i) r) rs))
       (map (λ c, map (indicator cell_of_int c) l) (omap (λ r : list cell, r !! i) rs)))
    (map (drop i) (map (λ r, take i r ++ drop (S i) r) rs))
  = map (splice cell_of_int i l) rs.
Proof.
  induction 1 as [|r rs Hr _ IH]; [done|].
  destruct (lookup_lt_is_Some_2 r i Hr) as [c Hc].
  simpl. rewrite Hc. simpl. f_equal; [|exact IH].
  unfold splice. rewrite Hc.
  rewrite take_app_le by (rewrite length_take; lia).
  rewrite take_take, Nat.min_id.
  rewrite drop_app_ge by (rewrite length_take; lia).
  rewrite length_take, Nat.min_l, Nat.sub_diag by lia.
  by rewrite <- app_assoc.
Qed.

Lemma column_values_length (j : nat) (X : ndarray2 cell) :
  Forall (λ r, j < length r) (rows X) → length (column_values j X) = nrows X.
Proof.
  unfold column_values, nrows.
  induction 1 as [|r rs Hr _ IH]; [done|].
  destruct (lookup_lt_is_Some_2 r j Hr) as [c Hc]. simpl. rewrite Hc. simpl.
  f_equal. exact IH.
Qed.

Lemma encode_column_pure_splice (drop_first : bool) (X : ndarray2 cell) (i : nat) :
  i < ncols X → Forall (λ r, i < length r) (rows X) →
  encode_column_pure cell_le cell_of_int drop_first X i
  = Ok (Mat (ncols X - 1 + length (labels cell_le X drop_first i))
            (map (splice cell_of_int i (labels cell_le X drop_first i)) (rows X))).
Proof.
  intros Hi Hrows. unfold encode_column_pure.
  rewrite column_in_range by done. simpl.
  unfold np_delete. rewrite decide_True by done. simpl.
  pose proof (column_values_length i X Hrows) as Hlen. unfold nrows in Hlen.
  unfold np_hstack3, np_hstack, nrows. simpl.
  rewrite decide_True by (by rewrite !length_map).
  simpl. rewrite decide_True; last first.
  { rewrite length_zip_with, !length_map. lia. }
  simpl. f_equal. f_equal.
  - unfold labels. destruct drop_first; lia.
  - unfold labels, column_values. destruct drop_first; by apply hstack3_splice.
Qed.

Lemma encode_row_cons (X : ndarray2 cell) (cats : list nat) (df : bool)
    (start : nat) (c : cell) (r : list cell) :
  encode_row cell_le cell_of_int X cats df start (c :: r)
  = encode_cell cell_le cell_of_int X cats df start c
    ++ encode_row cell_le cell_of_int X cats df (S start) r.
Proof.
  unfold encode_row. simpl. rewrite Nat.add_0_r. f_equal. f_equal.
  apply imap_ext. intros j x _. simpl. f_equal. lia.
Qed.

Lemma encode_row_app (X : ndarray2 cell) (cats : list nat) (df : bool)
    (start : nat) (r1 r2 : list cell) :
  encode_row cell_le cell_of_int X cats df start (r1 ++ r2)
  = encode_row cell_le cell_of_int X cats df start r1
    ++ encode_row cell_le cell_of_int X cats df (start + length r1) r2.
Proof.
  revert start. induction r1 as [|c r1 IH]; intros start; simpl.
  { by rewrite Nat.add_0_r. }
  rewrite !encode_row_cons, IH, <- app_assoc. do 3 f_equal. lia.
Qed.

(** Cells of columns that are not categorical stay as they are. *)
Lemma encode_row_id (X : ndarray2 cell) (cats : list nat) (df : bool)
    (start : nat) (r : list cell) :
  (∀ j, start ≤ j < start + length r → j ∉ cats) →
  encode_row cell_le cell_of_int X cats df start r = r.
Proof.
  revert start. induction r as [|c r IH]; intros start Hcats; [done|].
  rewrite encode_row_cons, IH.
  - unfold encode_cell. rewrite decide_False; [done|]. apply Hcats. simpl. lia.
  - intros j Hj. apply Hcats. simpl. lia.
Qed.

(** The encoding looks at the list of indices only through membership. *)
Lemma encode_row_ext (X : ndarray2 cell) (cats cats' : list nat) (df : bool)
    (start : nat) (r : list cell) :
  (∀ j, start ≤ j → j ∈ cats ↔ j ∈ cats') →
  encode_row cell_le cell_of_int X cats df start r
  = encode_row cell_le cell_of_int X cats' df start r.
Proof.
  revert start. induction r as [|c r IH]; intros start Hcats; [done|].
  rewrite !encode_row_cons, IH.
  - f_equal. unfold encode_cell.
    destruct (decide (start ∈ cats)) as [Hin|Hin];
      [rewrite decide_True | rewrite decide_False]; try done;
      by rewrite <- Hcats.
  - intros j Hj. apply Hcats. lia.
Qed.

(** A row encoded for the indices [done], all above [i]: its first [i]
    cells and cell [i] are those of the row. *)
Lemma encode_row_split (X : ndarray2 cell) (done : list nat) (df : bool)
    (i : nat) (c : cell) (r : list cell) :
  (∀ j, j ∈ done → i < j) → r !! i = Some c →
  encode_row cell_le cell_of_int X done df 0 r
  = take i r ++ c :: encode_row cell_le cell_of_int X done df (S i) (drop (S i) r).
Proof.
  intros Hdone Hc.
  assert (Hi : i < length r) by by eapply lookup_lt_Some.
  rewrite <- (take_drop_middle r i c Hc) at 1.
  rewrite encode_row_app, encode_row_cons, length_take, Nat.min_l by lia. simpl.
  rewrite encode_row_id; last first.
  { intros j Hj Hin. apply Hdone in Hin. rewrite length_take in Hj. lia. }
  f_equal. unfold encode_cell. rewrite decide_False; [done|].
  intros Hin. apply Hdone in Hin. lia.
Qed.

(** What the loop body does to an encoded row is to encode one more column. *)
Lemma splice_encode_row (X : ndarray2 cell) (done : list nat) (df : bool)
    (i : nat) (r : list cell) :
  i < length r → (∀ j, j ∈ done → i < j) →
  splice cell_of_int i (labels cell_le X df i) (encode_row cell_le cell_of_int X done df 0 r)
  = encode_row cell_le cell_of_int X (i :: done) df 0 r.
Proof.
  intros Hi Hdone.
  destruct (lookup_lt_is_Some_2 r i Hi) as [c Hc].
  rewrite (encode_row_split X done df i c r Hdone Hc).
  assert (Hlen : length (take i r) = i) by (rewrite length_take; lia).
  unfold splice.
  rewrite take_app_length' by done.
  rewrite list_lookup_middle by done.
  assert (Hdrop : ∀ E, drop (S i) (take i r ++ c :: E) = E).
  { intros E. rewrite cons_middle, app_assoc. apply drop_app_length'.
    rewrite length_app. simpl. lia. }
  rewrite Hdrop.
  assert (Hrhs : encode_row cell_le cell_of_int X (i :: done) df 0 r
                 = take i r ++ map (indicator cell_of_int c) (labels cell_le X df i)
                   ++ encode_row cell_le cell_of_int X (i :: done) df (S i) (drop (S i) r)).
  { rewrite <- (take_drop_middle r i c Hc) at 1.
    rewrite encode_row_app, encode_row_cons, Hlen. simpl.
    rewrite encode_row_id; last first.
    { rewrite Hlen. intros j Hj [->|Hin]%elem_of_cons; [lia|]. apply Hdone in Hin. lia. }
    f_equal. unfold encode_cell at 1. by rewrite decide_True by apply list_elem_of_here. }
  rewrite Hrhs. do 2 f_equal. apply encode_row_ext.
  intros j Hj. rewrite elem_of_cons. split; [auto|]. intros [->|?]; [lia|done].
Qed.

Lemma encode_row_lookup (X : ndarray2 cell) (done : list nat) (df : bool)
    (i : nat) (r : list cell) :
  i < length r → (∀ j, j ∈ done → i < j) →
  encode_row cell_le cell_of_int X done df 0 r !! i = r !! i.
Proof.
  intros Hi Hdone.
  destruct (lookup_lt_is_Some_2 r i Hi) as [c Hc].
  rewrite (encode_row_split X done df i c r Hdone Hc), Hc.
  apply list_lookup_middle. rewrite length_take. lia.
Qed.

Lemma encoded_width_id_sum (X : ndarray2 cell) (cats : list nat) (df : bool) (k : nat) :
  (∀ j, j < k → j ∉ cats) →
  sum_list_with (encoded_width cell_le X cats df) (seq 0 k) = k.
Proof.
  induction k as [|k IH]; intros Hcats; [done|].
  rewrite seq_S, sum_list_with_app, IH by (intros j Hj; apply Hcats; lia).
  simpl. unfold encoded_width. rewrite decide_False by (apply Hcats; lia). lia.
Qed.

(** One more categorical column [i]: its width 1 becomes the number of its
    labels. *)
Lemma encoded_width_cons_sum (X : ndarray2 cell) (done : list nat) (df : bool)
    (i n : nat) :
  i ∉ done →
  sum_list_with (encoded_width cell_le X (i :: done) df) (seq 0 n)
    + (if decide (i < n) then 1 else 0)
  = sum_list_with (encoded_width cell_le X done df) (seq 0 n)
    + (if decide (i < n) then length (labels cell_le X df i) else 0).
Proof.
  intros Hi. induction n as [|n IH]; [done|].
  rewrite seq_S, !sum_list_with_app. simpl. unfold encoded_width at 2 4.
  destruct (decide (n = i)) as [->|Hne].
  - rewrite decide_True by apply list_elem_of_here.
    rewrite (decide_False (P := i ∈ done)) by done.
    repeat case_decide; lia.
  - assert (Hmem : n ∈ i :: done ↔ n ∈ done).
    { rewrite elem_of_cons. split; [by intros [?|?]|auto]. }
    destruct (decide (n ∈ done)) as [Hin|Hin].
    + rewrite (decide_True (P := n ∈ i :: done)) by by apply Hmem.
      repeat case_decide; lia.
    + rewrite (decide_False (P := n ∈ i :: done)) by by rewrite Hmem.
      repeat case_decide; lia.
Qed.

Lemma encoded_width_sum_lower (X : ndarray2 cell) (done : list nat) (df : bool)
    (i n : nat) :
  i < n → (∀ j, j ∈ done → i < j) →
  S i ≤ sum_list_with (encoded_width cell_le X done df) (seq 0 n).
Proof.
  intros Hi Hdone.
  replace n with (S i + (n - S i)) by lia.
  rewrite seq_app, sum_list_with_app, encoded_width_id_sum; [lia|].
  intros j Hj Hin. apply Hdone in Hin. lia.
Qed.

(** With no categorical column the encoding is the array itself. *)
Lemma one_hot_spec_nil (X : ndarray2 cell) (df : bool) :
  rectangular X → one_hot_spec cell_le cell_of_int X [] df = X.
Proof.
  intros HX. destruct X as [n rs]. unfold one_hot_spec. simpl. f_equal.
  - apply encoded_width_id_sum. intros j _. apply not_elem_of_nil.
  - transitivity (map id rs); [|apply map_id].
    apply map_ext. intros r. apply encode_row_id. intros j _. apply not_elem_of_nil.
Qed.

Lemma sum_list_with_pointwise {T : Type} (f g : T → nat) (l : list T) :
  (∀ x, f x = g x) → sum_list_with f l = sum_list_with g l.
Proof. intros Hfg. induction l as [|x l IH]; simpl; [done|]. by rewrite Hfg, IH. Qed.

Lemma one_hot_spec_ext (X : ndarray2 cell) (cats cats' : list nat) (df : bool) :
  (∀ j, j ∈ cats ↔ j ∈ cats') →
  one_hot_spec cell_le cell_of_int X cats df = one_hot_spec cell_le cell_of_int X cats' df.
Proof.
  intros Hcats. unfold one_hot_spec. f_equal.
  - apply sum_list_with_pointwise. intros j. unfold encoded_width.
    destruct (decide (j ∈ cats)) as [Hin|Hin];
      [rewrite decide_True | rewrite decide_False]; try done; by rewrite <- Hcats.
  - apply map_ext. intros r. apply encode_row_ext. intros j _. apply Hcats.
Qed.

Lemma column_values_spec (X : ndarray2 cell) (done : list nat) (df : bool) (i : nat) :
  Forall (λ r, i < length r) (rows X) → (∀ j, j ∈ done → i < j) →
  column_values i (one_hot_spec cell_le cell_of_int X done df) = column_values i X.
Proof.
  intros Hrows Hdone. unfold column_values, one_hot_spec. simpl.
  induction Hrows as [|r rs Hr _ IH]; [done|].
  simpl. rewrite encode_row_lookup by done.
  destruct (r !! i); simpl; [f_equal|]; exact IH.
Qed.

(** The loop body takes the encoding for the indices [done], all above [i],
    to the encoding for [i :: done]. *)
Lemma encode_column_pure_spec (X : ndarray2 cell) (done : list nat) (df : bool) (i : nat) :
  rectangular X → i < ncols X → (∀ j, j ∈ done → i < j) →
  encode_column_pure cell_le cell_of_int df (one_hot_spec cell_le cell_of_int X done df) i
  = Ok (one_hot_spec cell_le cell_of_int X (i :: done) df).
Proof.
  intros HX Hi Hdone.
  assert (Hrows : Forall (λ r, i < length r) (rows X)).
  { eapply Forall_impl; [exact HX|]. simpl. intros r ->. done. }
  assert (Hnotin : i ∉ done).
  { intros Hin. apply Hdone in Hin. lia. }
  rewrite encode_column_pure_splice.
  - unfold labels at 1 2. rewrite column_values_spec by done.
    fold (labels cell_le X df i).
    unfold one_hot_spec. simpl. f_equal. f_equal.
    + pose proof (encoded_width_cons_sum X done df i (ncols X) Hnotin) as Hsum.
      rewrite !decide_True in Hsum by done.
      pose proof (encoded_width_sum_lower X done df i (ncols X) Hi Hdone). lia.
    + rewrite map_map. apply Forall_fmap_ext_1.
      eapply Forall_impl; [exact Hrows|]. simpl. intros r Hr.
      by apply splice_encode_row.
  - simpl. by apply encoded_width_sum_lower.
  - simpl. apply Forall_fmap. eapply Forall_impl; [exact Hrows|]. simpl. intros r Hr.
    destruct (lookup_lt_is_Some_2 r i Hr) as [c Hc].
    apply (lookup_lt_Some _ _ c). by rewrite encode_row_lookup.
Qed.

(** *** The heap: the function only allocates *)

Lemma new_array_extends (X : ndarray2 cell) (h : gmap loc (ndarray2 cell)) :
  h ⊆ (new_array X h).2.
Proof.
  unfold new_array. simpl. apply insert_subseteq, not_elem_of_dom, is_fresh.
Qed.

Lemma new_array_fresh (X : ndarray2 cell) (h : gmap loc (ndarray2 cell)) (l : loc) :
  (new_array X h).1 = Ok l → h !! l = None.
Proof.
  unfold new_array. simpl. intros [= <-]. apply not_elem_of_dom, is_fresh.
Qed.

Lemma bind_extends {T U : Type} (c : M (gmap loc (ndarray2 cell)) T)
    (k : T → M (gmap loc (ndarray2 cell)) U) :
  (∀ h, h ⊆ (c h).2) → (∀ v h, h ⊆ (k v h).2) → ∀ h, h ⊆ (bind c k h).2.
Proof.
  intros Hc Hk h. unfold bind. specialize (Hc h).
  destruct (c h) as [[v|e] h1]; simpl in *; [|done].
  etrans; [exact Hc|apply Hk].
Qed.

Lemma bind_fresh {T : Type} (c : M (gmap loc (ndarray2 cell)) T)
    (k : T → M (gmap loc (ndarray2 cell)) loc) :
  (∀ h, h ⊆ (c h).2) → (∀ v h l, (k v h).1 = Ok l → h !! l = None) →
  ∀ h l, (bind c k h).1 = Ok l → h !! l = None.
Proof.
  intros Hc Hk h l. unfold bind. specialize (Hc h).
  destruct (c h) as [[v|e] h1]; simpl in *; [|done].
  intros Hl. eapply lookup_weaken_None; [|exact Hc]. by eapply Hk.
Qed.

Lemma encode_column_extends (df : bool) (Xt : loc) (i : nat) (h : gmap loc (ndarray2 cell)) :
  h ⊆ (encode_column cell_le cell_of_int df Xt i h).2.
Proof.
  revert h. unfold encode_column.
  repeat (apply bind_extends; [done || apply new_array_extends|]; intros ?).
  apply new_array_extends.
Qed.

Lemma encode_column_fresh (df : bool) (Xt : loc) (i : nat)
    (h : gmap loc (ndarray2 cell)) (l : loc) :
  (encode_column cell_le cell_of_int df Xt i h).1 = Ok l → h !! l = None.
Proof.
  revert h l. unfold encode_column.
  repeat (apply bind_fresh; [done || apply new_array_extends|]; intros ?).
  apply new_array_fresh.
Qed.

Lemma for_each_extends (df : bool) (indices : list nat) :
  ∀ (Xt : loc) (h : gmap loc (ndarray2 cell)),
  h ⊆ (for_each (encode_column cell_le cell_of_int df) Xt indices h).2.
Proof.
  induction indices as [|i indices IH]; intros Xt h; simpl; [done|].
  revert h. apply bind_extends; [apply encode_column_extends|]. intros X' h. apply IH.
Qed.

Lemma for_each_fresh (df : bool) (indices : list nat) :
  ∀ (Xt : loc) (h : gmap loc (ndarray2 cell)) (l : loc),
  (for_each (encode_column cell_le cell_of_int df) Xt indices h).1 = Ok l →
  l = Xt ∨ h !! l = None.
Proof.
  induction indices as [|i indices IH]; intros Xt h l; simpl.
  { intros [= ->]. by left. }
  unfold bind.
  pose proof (encode_column_extends df Xt i h) as Hext.
  pose proof (encode_column_fresh df Xt i h) as Hfr.
  destruct (encode_column cell_le cell_of_int df Xt i h) as [[X'|e] h1]; simpl in *; [|done].
  intros Hl. right. destruct (IH X' h1 l Hl) as [->|Hnone].
  - by apply Hfr.
  - by eapply lookup_weaken_None.
Qed.

(** *** The function computes the encoding *)

Lemma encode_column_run (df : bool) (Xt : loc) (i : nat)
    (h : gmap loc (ndarray2 cell)) (Xcur X' : ndarray2 cell) :
  h !! Xt = Some Xcur → encode_column_pure cell_le cell_of_int df Xcur i = Ok X' →
  ∃ (l : loc) (h' : gmap loc (ndarray2 cell)),
    encode_column cell_le cell_of_int df Xt i h = (Ok l, h')
    ∧ h' !! l = Some X' ∧ h ⊆ h'.
Proof.
  intros Hh Hpure.
  pose proof (encode_column_extends df Xt i h) as Hext.
  revert Hext. unfold encode_column, encode_column_pure in *.
  unfold bind, array_at, gets, lift, new_array. rewrite Hh. simpl.
  destruct (column i Xcur) as [col|e]; simpl in *; [|done].
  destruct (np_delete Xcur i) as [D|e]; simpl in *; [|done].
  rewrite lookup_insert_eq. simpl. rewrite Hpure. simpl.
  intros Hext. eexists _, _. split; [reflexivity|].
  split; [apply lookup_insert_eq|exact Hext].
Qed.

Lemma for_each_spec (X0 : ndarray2 cell) (df : bool) (indices : list nat) :
  rectangular X0 →
  ∀ (done : list nat) (Xt : loc) (h : gmap loc (ndarray2 cell)),
  h !! Xt = Some (one_hot_spec cell_le cell_of_int X0 done df) →
  StronglySorted (flip (≤)) indices → NoDup indices →
  (∀ i, i ∈ indices → i < ncols X0) →
  (∀ i j, i ∈ indices → j ∈ done → i < j) →
  ∃ (l : loc) (h' : gmap loc (ndarray2 cell)),
    for_each (encode_column cell_le cell_of_int df) Xt indices h = (Ok l, h')
    ∧ h' !! l = Some (one_hot_spec cell_le cell_of_int X0 (indices ++ done) df)
    ∧ h ⊆ h'.
Proof.
  intros HX. induction indices as [|i rest IH];
    intros done Xt h Hh Hsorted Hnodup Hrange Hbelow; simpl.
  { by exists Xt, h. }
  apply StronglySorted_inv in Hsorted as [Hsorted Hi].
  apply NoDup_cons in Hnodup as [Hnotin Hnodup].
  destruct (encode_column_run df Xt i h _ (one_hot_spec cell_le cell_of_int X0 (i :: done) df) Hh)
    as (l1 & h1 & Hrun1 & Hl1 & Hext1).
  { apply encode_column_pure_spec; [done|apply Hrange, list_elem_of_here|].
    intros j Hj. apply Hbelow; [apply list_elem_of_here|done]. }
  destruct (IH (i :: done) l1 h1 Hl1 Hsorted Hnodup) as (l & h' & Hrun & Hl & Hext).
  { intros k Hk. apply Hrange. by apply list_elem_of_further. }
  { intros k j Hk [->|Hj]%elem_of_cons.
    - rewrite Forall_forall in Hi. specialize (Hi k Hk). unfold flip in Hi.
      assert (k ≠ i) by (by intros ->). lia.
    - apply Hbelow; [by apply list_elem_of_further|done]. }
  exists l, h'. unfold bind. rewrite Hrun1, Hrun. split; [done|]. split.
  - rewrite Hl. f_equal. apply one_hot_spec_ext. intros j.
    rewrite !elem_of_app, !elem_of_cons, elem_of_app. tauto.
  - by etrans.
Qed.

Lemma sorted_reverse_spec (l : list nat) :
  StronglySorted (flip (≤)) (sorted_reverse l) ∧ sorted_reverse l ≡ₚ l.
Proof.
  unfold sorted_reverse. split; [|apply merge_sort_Permutation].
  apply StronglySorted_merge_sort.
  - intros a b c. unfold flip. lia.
  - intros a b. unfold flip. lia.
Qed.

Lemma one_hot_encode_run (h : gmap loc (ndarray2 cell)) (X : loc) (X0 : ndarray2 cell)
    (cats : list nat) (df : bool) :
  h !! X = Some X0 → rectangular X0 → NoDup cats → (∀ j, j ∈ cats → j < ncols X0) →
  ∃ (l : loc) (h' : gmap loc (ndarray2 cell)),
    one_hot_encode cell_le cell_of_int X cats df h = (Ok l, h')
    ∧ h' !! l = Some (one_hot_spec cell_le cell_of_int X0 cats df).
Proof.
  intros Hh HX Hnodup Hrange.
  destruct (sorted_reverse_spec cats) as [Hsorted Hperm].
  unfold one_hot_encode, bind, array_at, gets, new_array. rewrite Hh. simpl.
  destruct (for_each_spec X0 df (sorted_reverse cats) HX [] (fresh (dom h))
              (<[fresh (dom h) := X0]> h))
    as (l & h' & Hrun & Hl & _); try done.
  - by rewrite lookup_insert_eq, one_hot_spec_nil.
  - by rewrite Hperm.
  - intros i Hi. apply Hrange. by rewrite <- Hperm.
  - intros i j _ Hj. by apply elem_of_nil in Hj.
  - exists l, h'. split; [exact Hrun|]. rewrite Hl. f_equal.
    apply one_hot_spec_ext. intros j. rewrite app_nil_r. by rewrite Hperm.
Qed.
End one_hot_facts.

(** *** [merge_sort] on elements that compare *)

Section merge_sort_on.
Context {T : Type} (R R' : relation T).
Context `{!RelDecision R} `{!RelDecision R'}.
Context (P : T → Prop).
Hypothesis agree : ∀ a b, P a → P b → (R a b ↔ R' a b).

Lemma list_merge_on (l1 l2 : list T) :
  Forall P l1 → Forall P l2 → list_merge R l1 l2 = list_merge R' l1 l2.
Proof using agree.
  intros H1. revert l2. induction H1 as [|x1 l1 Hx1 H1 IH1]; intros l2 H2.
  { by rewrite !list_merge_nil_l. }
  induction H2 as [|x2 l2 Hx2 H2 IH2].
  { by rewrite !list_merge_nil_r. }
  rewrite !list_merge_cons.
  destruct (decide (R x1 x2)) as [Hr|Hr], (decide (R' x1 x2)) as [Hr'|Hr'].
  - f_equal. apply IH1. by constructor.
  - by apply agree in Hr.
  - by apply agree in Hr'.
  - by f_equal.
Qed.

Definition stack_on (st : list (option (list T))) : Prop :=
  Forall (λ o, from_option (Forall P) True o) st.

Lemma merge_list_to_stack_on (st : list (option (list T))) (l : list T) :
  stack_on st → Forall P l →
  merge_list_to_stack R st l = merge_list_to_stack R' st l
  ∧ stack_on (merge_list_to_stack R st l).
Proof using agree.
  intros Hst. revert l. induction Hst as [|[l'|] st Hl' Hst IH]; intros l Hl; simpl.
  - split; [done|]. by repeat constructor.
  - destruct (IH (list_merge R l' l)) as [Heq Hon].
    { rewrite merge_Permutation. by apply Forall_app. }
    split.
    + f_equal. rewrite Heq. f_equal. by apply list_merge_on.
    + by constructor.
  - split; [done|]. by constructor.
Qed.

Lemma merge_stack_on (st : list (option (list T))) :
  stack_on st →
  merge_stack R st = merge_stack R' st ∧ Forall P (merge_stack R st).
Proof using agree.
  induction 1 as [|[l'|] st Hl' Hst [IH1 IH2]]; simpl.
  - done.
  - split.
    + rewrite <- IH1. by apply list_merge_on.
    + rewrite merge_Permutation. by apply Forall_app.
  - done.
Qed.

Lemma merge_sort_aux_on (l : list T) :
  ∀ st, stack_on st → Forall P l →
  merge_sort_aux R st l = merge_sort_aux R' st l.
Proof using agree.
  induction l as [|x l IH]; intros st Hst Hl; simpl.
  { by apply merge_stack_on. }
  apply Forall_cons in Hl as [Hx Hl].
  destruct (merge_list_to_stack_on st [x] Hst) as [Heq Hon]; [by repeat constructor|].
  rewrite <- Heq. by apply IH.
Qed.

(** [merge_sort] only looks at the order between the elements it sorts. *)
Lemma merge_sort_on (l : list T) :
  Forall P l → merge_sort R l = merge_sort R' l.
Proof using agree. intros Hl. by apply merge_sort_aux_on; [constructor|]. Qed.
End merge_sort_on.

Section sorted_on.
Context {T : Type} `{EqDecision T} (R : relation T) `{!RelDecision R}.

(** A list whose elements all compare is sorted by [merge_sort]. *)
Lemma Sorted_merge_sort_on (l : list T) :
  (∀ a b, a ∈ l → b ∈ l → R a b ∨ R b a) → Sorted R (merge_sort R l).
Proof using All.
  intros Hcmp.
  set (R' := λ a b, if decide (a ∈ l ∧ b ∈ l) then R a b else a ∉ l).
  assert (Hdec : RelDecision R').
  { intros a b. unfold R'. destruct (decide (a ∈ l ∧ b ∈ l)); apply _. }
  assert (Htotal : Total R').
  { intros a b. unfold R'.
    destruct (decide (a ∈ l)) as [Ha|Ha], (decide (b ∈ l)) as [Hb|Hb].
    - rewrite !decide_True by done. by apply Hcmp.
    - right. by rewrite decide_False by tauto.
    - left. by rewrite decide_False by tauto.
    - left. by rewrite decide_False by tauto. }
  rewrite (merge_sort_on R R' (λ a, a ∈ l)).
  - pose proof (Sorted_merge_sort R' l) as Hs.
    assert (Hin : Forall (λ a, a ∈ l) (merge_sort R' l)).
    { apply Forall_forall. intros a. by rewrite merge_sort_Permutation. }
    induction Hs as [|x m Hs IH Hhd]; [constructor|].
    apply Forall_cons in Hin as [Hx Hin]. constructor; [by apply IH|].
    destruct Hhd as [|y m Hxy]; constructor.
    apply Forall_cons in Hin as [Hy _].
    unfold R' in Hxy. by rewrite decide_True in Hxy.
  - intros a b Ha Hb. unfold R'. by rewrite decide_True.
  - by apply Forall_forall.
Qed.
End sorted_on.

Section one_hot_properties.
Context {cell : Type} `{EqDecision cell}.
Context (cell_le : relation cell) `{!RelDecision cell_le}.
Context (cell_of_int : Z → cell).








(** *** Arrays of dtype [object] *)

Lemma comparable_spec (c : list cell) :
  object_array.comparable cell_le c
  ↔ ∀ a b, a ∈ c → b ∈ c → cell_le a b ∨ cell_le b a.
Proof.
  unfold object_array.comparable. rewrite Forall_forall.
  split.
  - intros Hc a b Ha Hb. specialize (Hc a Ha). rewrite Forall_forall in Hc. by apply Hc.
  - intros Hc a Ha. apply Forall_forall. intros b Hb. by apply Hc.
Qed.

(** On a column whose cells all compare, [np.unique] returns the distinct
    values in order. *)
Lemma np_unique_comparable (c : list cell) :
  object_array.comparable cell_le c →
  object_array.np_unique cell_le c = Ok (np_unique cell_le c)
  ∧ Sorted cell_le (np_unique cell_le c)
  ∧ NoDup (np_unique cell_le c)
  ∧ ∀ x, x ∈ np_unique cell_le c ↔ x ∈ c.
Proof.
  intros Hc. unfold object_array.np_unique, np_unique. rewrite decide_True by done.
  split_and!; [done| | |].
  - apply Sorted_merge_sort_on. intros a b Ha Hb.
    apply (proj1 (elem_of_remove_dups _ _)) in Ha.
    apply (proj1 (elem_of_remove_dups _ _)) in Hb.
    exact (proj1 (comparable_spec c) Hc a b Ha Hb).
  - rewrite merge_sort_Permutation. apply NoDup_remove_dups.
  - intros x. rewrite merge_sort_Permutation. apply elem_of_remove_dups.
Qed.

Lemma column_ok_values (j : nat) (X : ndarray2 cell) (c : list cell) :
  column j X = Ok c → c = column_values j X.
Proof.
  unfold column, column_values. case_decide; [|done].
  destruct (mapM (λ r : list cell, r !! j) (rows X)) as [c'|] eqn:Hm; [|done].
  intros [= <-]. revert c' Hm. induction (rows X) as [|r rs IH]; intros c' Hm.
  { by injection Hm as <-. }
  simpl in Hm. destruct (r !! j) as [x|] eqn:Hr; simpl in Hm; [|done].
  destruct (mapM (λ r0 : list cell, r0 !! j) rs) as [cs|] eqn:Hms; simpl in Hm; [|done].
  injection Hm as <-. simpl. rewrite Hr. simpl. f_equal. exact (IH cs eq_refl).
Qed.

(** The loop body on an array whose column [i] holds cells that compare. *)
Lemma encode_column_comparable (df : bool) (Xt : loc) (i : nat)
    (h : gmap loc (ndarray2 cell)) (Xcur : ndarray2 cell) :
  h !! Xt = Some Xcur → object_array.comparable cell_le (column_values i Xcur) →
  object_array.encode_column cell_le cell_of_int df Xt i h
  = encode_column cell_le cell_of_int df Xt i h.
Proof.
  intros Hh Hc. unfold object_array.encode_column, encode_column.
  unfold bind, array_at, gets, lift. rewrite Hh. simpl.
  destruct (column i Xcur) as [col|e] eqn:Hcol; [|done].
  apply column_ok_values in Hcol as ->.
  destruct (np_unique_comparable _ Hc) as [-> _]. done.
Qed.

Lemma for_each_comparable (X0 : ndarray2 cell) (df : bool) (indices : list nat) :
  rectangular X0 →
  ∀ (seen : list nat) (Xt : loc) (h : gmap loc (ndarray2 cell)),
  h !! Xt = Some (one_hot_spec cell_le cell_of_int X0 seen df) →
  StronglySorted (flip (≤)) indices → NoDup indices →
  (∀ i, i ∈ indices → i < ncols X0) →
  (∀ i j, i ∈ indices → j ∈ seen → i < j) →
  (∀ i, i ∈ indices → object_array.comparable cell_le (column_values i X0)) →
  for_each (object_array.encode_column cell_le cell_of_int df) Xt indices h
  = for_each (encode_column cell_le cell_of_int df) Xt indices h.
Proof.
  intros HX. induction indices as [|i rest IH];
    intros seen Xt h Hh Hsorted Hnodup Hrange Hbelow Hcmp; simpl; [done|].
  apply StronglySorted_inv in Hsorted as [Hsorted Hi].
  apply NoDup_cons in Hnodup as [Hnotin Hnodup].
  assert (Hrows : Forall (λ r, i < length r) (rows X0)).
  { eapply Forall_impl; [exact HX|]. simpl. intros r ->.
    apply Hrange, list_elem_of_here. }
  assert (Hdone : ∀ j, j ∈ seen → i < j).
  { intros j Hj. apply Hbelow; [apply list_elem_of_here|done]. }
  destruct (encode_column_run cell_le cell_of_int df Xt i h _
              (one_hot_spec cell_le cell_of_int X0 (i :: seen) df) Hh)
    as (l1 & h1 & Hrun1 & Hl1 & Hext1).
  { apply encode_column_pure_spec; [done|apply Hrange, list_elem_of_here|done]. }
  unfold bind. erewrite encode_column_comparable; [|exact Hh|].
  - rewrite Hrun1. apply (IH (i :: seen)); try done.
    + intros k Hk. apply Hrange. by apply list_elem_of_further.
    + intros k j Hk [->|Hj]%elem_of_cons.
      * rewrite Forall_forall in Hi. specialize (Hi k Hk). unfold flip in Hi.
        assert (k ≠ i) by (by intros ->). lia.
      * apply Hbelow; [by apply list_elem_of_further|done].
    + intros k Hk. apply Hcmp. by apply list_elem_of_further.
  - rewrite column_values_spec by done. apply Hcmp, list_elem_of_here.
Qed.

(** Where the cells of each categorical column compare, the function does
    on an array of dtype [object] what it does on any other. *)
Lemma one_hot_encode_comparable (h : gmap loc (ndarray2 cell)) (X : loc)
    (X0 : ndarray2 cell) (cats : list nat) (df : bool) :
  h !! X = Some X0 → rectangular X0 → NoDup cats → (∀ j, j ∈ cats → j < ncols X0) →
  (∀ j, j ∈ cats → object_array.comparable cell_le (column_values j X0)) →
  object_array.one_hot_encode cell_le cell_of_int X cats df h
  = one_hot_encode cell_le cell_of_int X cats df h.
Proof.
  intros Hh HX Hnodup Hrange Hcmp.
  destruct (sorted_reverse_spec cats) as [Hsorted Hperm].
  unfold object_array.one_hot_encode, one_hot_encode, bind, array_at, gets, new_array.
  rewrite Hh. simpl.
  apply (for_each_comparable X0 df (sorted_reverse cats) HX []); try done.
  - by rewrite lookup_insert_eq, one_hot_spec_nil.
  - by rewrite Hperm.
  - intros i Hi. apply Hrange. by rewrite <- Hperm.
  - intros i j _ Hj. by apply elem_of_nil in Hj.
  - intros i Hi. apply Hcmp. by rewrite <- Hperm.
Qed.

(** C4 (amended): on a rectangular [X] of dtype [object] and distinct column
    indices in range, where the cells of each categorical column compare
    with one another, [one_hot_encode] goes through the indices in
    descending order and returns a new array holding the encoding
    [one_hot_spec]: the columns of [X] in their order, where each
    categorical column is replaced, at its place, by one indicator column
    per label, and every other column is kept.  The labels of a column are
    its sorted distinct values, without the first one when [drop_first]; the
    indicator of a cell for a label is [1] when the cell equals the label
    and [0] otherwise. *)
Theorem one_hot_encode_encoding (h : gmap loc (ndarray2 cell))
    (X : loc) (X0 : ndarray2 cell) (categorical_indices : list nat) (drop_first : bool) :
  h !! X = Some X0 → rectangular X0 → NoDup categorical_indices →
  (∀ j, j ∈ categorical_indices → j < ncols X0) →
  (∀ j, j ∈ categorical_indices →
     ∀ a b, a ∈ column_values j X0 → b ∈ column_values j X0 →
     cell_le a b ∨ cell_le b a) →
  ∃ (l : loc) (h' : gmap loc (ndarray2 cell)),
    object_array.one_hot_encode cell_le cell_of_int X categorical_indices drop_first h
    = (Ok l, h')
    ∧ h' !! l = Some (one_hot_spec cell_le cell_of_int X0 categorical_indices drop_first)
    ∧ StronglySorted (flip (≤)) (sorted_reverse categorical_indices)
    ∧ sorted_reverse categorical_indices ≡ₚ categorical_indices
    ∧ (∀ j, j ∈ categorical_indices →
         let domain := np_unique cell_le (column_values j X0) in
         object_array.np_unique cell_le (column_values j X0) = Ok domain
         ∧ Sorted cell_le domain
         ∧ NoDup domain
         ∧ (∀ c, c ∈ domain ↔ c ∈ column_values j X0)
         ∧ labels cell_le X0 drop_first j = (if drop_first then drop 1 domain else domain))
    ∧ (∀ c l : cell, indicator cell_of_int c l
                     = cell_of_int (if decide (c = l) then 1 else 0)%Z).
Proof.
  intros Hh HX Hnodup Hrange Hcmp.
  assert (Hcmp' : ∀ j, j ∈ categorical_indices →
                    object_array.comparable cell_le (column_values j X0)).
  { intros j Hj. apply comparable_spec. by apply Hcmp. }
  destruct (one_hot_encode_run cell_le cell_of_int h X X0 categorical_indices drop_first)
    as (l & h' & Hrun & Hl); try done.
  destruct (sorted_reverse_spec categorical_indices) as [Hsorted Hperm].
  exists l, h'. split_and!; try done.
  - by rewrite (one_hot_encode_comparable h X X0).
  - intros j Hj. cbv zeta.
    destruct (np_unique_comparable (column_values j X0) (Hcmp' j Hj)) as (Hu & Hs & Hn & Hmem).
    by split_and!.
Qed.


(** C10: whatever the arguments, and whether the call returns or raises,
    every array of the heap is after the call what it was before, [X]
    among them; an array that is returned is one that did not exist
    before the call. *)
Theorem one_hot_encode_frame (h : gmap loc (ndarray2 cell)) (X : loc)
    (categorical_indices : list nat) (drop_first : bool) :
  let r := one_hot_encode cell_le cell_of_int X categorical_indices drop_first h in
  h ⊆ r.2
  ∧ (∀ X0, h !! X = Some X0 → r.2 !! X = Some X0)
  ∧ (∀ l, r.1 = Ok l → h !! l = None).
Proof.
  cbv zeta.
  assert (Hext : h ⊆ (one_hot_encode cell_le cell_of_int X categorical_indices drop_first h).2).
  { revert h. unfold one_hot_encode.
    apply bind_extends; [done|]. intros X0.
    apply bind_extends; [apply new_array_extends|]. intros Xt h.
    apply for_each_extends. }
  split_and!; [done| |].
  - intros X0 HX0. by eapply lookup_weaken.
  - intros l. unfold one_hot_encode, bind, array_at, gets, new_array. simpl.
    intros Hl. apply for_each_fresh in Hl as [->|Hnone].
    + apply not_elem_of_dom, is_fresh.
    + eapply lookup_weaken_None; [exact Hnone|].
      apply insert_subseteq, not_elem_of_dom, is_fresh.
Qed.
End one_hot_properties.

(** The array [[1, "a"], [2, "b"], [3, "a"]] of the specification's example,
    at location 0 of a heap that holds nothing else. *)
Lemma one_hot_encode_example :
  (∃ (l : loc) (h' : gmap loc (ndarray2 pyval)),
     object_array.one_hot_encode pyval_le PyInt 0 [1] false {[0 := example_X]} = (Ok l, h')
     ∧ h' !! l = Some (Mat 3 [[PyInt 1; PyInt 1; PyInt 0];
                              [PyInt 2; PyInt 0; PyInt 1];
                              [PyInt 3; PyInt 1; PyInt 0]]))
  ∧ (∃ (l : loc) (h' : gmap loc (ndarray2 pyval)),
       object_array.one_hot_encode pyval_le PyInt 0 [1] true {[0 := example_X]} = (Ok l, h')
       ∧ h' !! l = Some (Mat 2 [[PyInt 1; PyInt 0];
                                [PyInt 2; PyInt 1];
                                [PyInt 3; PyInt 0]])).
Proof.
  assert (Hnodup : NoDup [1]) by (apply NoDup_singleton).
  assert (Hrange : ∀ j, j ∈ [1] → j < ncols example_X).
  { intros j ->%list_elem_of_singleton. simpl. lia. }
  assert (HX : rectangular example_X) by (repeat constructor).
  assert (Hcmp : ∀ j, j ∈ [1] →
            ∀ a b, a ∈ column_values j example_X → b ∈ column_values j example_X →
            pyval_le a b ∨ pyval_le b a).
  { intros j ->%list_elem_of_singleton. apply comparable_spec.
    refine (bool_decide_unpack _ _). vm_compute. exact I. }
  split.
  - destruct (one_hot_encode_encoding pyval_le PyInt {[0 := example_X]} 0 example_X [1] false)
      as (l & h' & Hrun & Hl & _); try done.
    exists l, h'. split; [exact Hrun|]. rewrite Hl. vm_compute. reflexivity.
  - destruct (one_hot_encode_encoding pyval_le PyInt {[0 := example_X]} 0 example_X [1] true)
      as (l & h' & Hrun & Hl & _); try done.
    exists l, h'. split; [exact Hrun|]. rewrite Hl. vm_compute. reflexivity.
Defined.

(** C4, as stated, fails on an array one of whose categorical columns holds
    values that do not compare: on [[1, "a"], [2, 7], [3, "a"]] and the
    index 1, [np.unique] raises [TypeError] in the first pass of the loop,
    and no array is returned.  All that was allocated is the copy of [X]. *)
Lemma one_hot_encode_mixed_column :
  object_array.one_hot_encode pyval_le PyInt 0 [1] false {[0 := mixed_X]}
  = (Raise TypeError, <[1 := mixed_X]> {[0 := mixed_X]})
  ∧ object_array.one_hot_encode pyval_le PyInt 0 [1] true {[0 := mixed_X]}
    = (Raise TypeError, <[1 := mixed_X]> {[0 := mixed_X]}).
Proof. split; vm_compute; reflexivity. Qed.



(** * Further properties of the code *)

(** ** numpy broadcasting of two flat arrays *)

Section broadcast_facts.
Context {A : Type}.

Lemma broadcast_mismatch (op : A → A → A) (u v : list A) :
  length u ≠ length v → length u ≠ 1 → length v ≠ 1 →
  broadcast op u v = Raise ValueError.
Proof.
  intros Huv Hu Hv. unfold broadcast. rewrite decide_False by done.
  destruct u as [|a [|a' u]], v as [|b [|b' v]]; simpl in *; done.
Qed.

Lemma broadcast_one (op : A → A → A) (u : list A) (c : A) :
  broadcast op u [c] = Ok (map (λ a, op a c) u).
Proof.
  unfold broadcast.
  destruct (decide (length u = length [c])) as [Hu|Hu];
    destruct u as [|a [|a' u]]; simpl in *; done.
Qed.

Lemma broadcast_replicate (op : A → A → A) (u : list A) (c : A) :
  broadcast op u (replicate (length u) c) = Ok (map (λ a, op a c) u).
Proof.
  unfold broadcast. rewrite decide_True by by rewrite length_replicate.
  by rewrite zip_with_replicate_r_eq.
Qed.
End broadcast_facts.

(** ** LinearRegressor: fitting, then predicting *)

Section regressor_properties.
Context {A : Type} `{Numeric A}.
Context (linalg_inv : ndarray2 A → option (ndarray2 A)).
Context {G : Type} (random_rand : G → A * G).

(** [predict] on a model that holds the intercept [b] and the coefficient
    values [c]. *)
Lemma predict_run (X : ndarray A) (w : world A G) (l : loc) (b : A) (c : list A) :
  coefficients w = Some l → intercept w = Some b → heap w !! l = Some c →
  predict X w
  = (match X with
     | Arr1 v => let? p := broadcast nmul c v in Ok (map (nadd b) p)
     | Arr2 X2 => let? p := np_dot_mv X2 c in Ok (map (nadd b) p)
     end, w).
Proof.
  intros Hl Hb Hc. unfold predict, bind, load, gets, lift. rewrite Hl, Hb, Hc. simpl.
  destruct X as [v|X2].
  - by destruct (broadcast nmul c v).
  - by destruct (np_dot_mv X2 c).
Qed.

(** X4: [predict] only reads the model: whatever it returns or raises, the
    intercept, the coefficient array, every other array, the generator and
    the output are as before the call. *)
Theorem predict_read_only (X : ndarray A) (w : world A G) :
  (predict X w).2 = w.
Proof.
  unfold predict.
  destruct (coefficients w) as [l|] eqn:Hl; [|done].
  destruct (intercept w) as [b|] eqn:Hb; [|done].
  unfold bind, load, gets, lift. simpl.
  destruct X as [v|X2].
  - by destruct (broadcast nmul (default [] (heap w !! l)) v).
  - by destruct (np_dot_mv X2 (default [] (heap w !! l))).
Qed.

(** X1: a model built by [__init__] and fitted by least squares on a
    two-dimensional X predicts, on every two-dimensional X' with the columns
    of X, the value w0 + r · ws for each row r of X', where w0 :: ws are the
    weights of the normal equation; on an X' with another number of columns
    it raises ValueError.  The model is not changed by the prediction. *)
Theorem fit_then_predict (X : ndarray2 A) (y : list A) (Xi : ndarray2 A)
    (learning_rate : A) (iterations : Z) (w : world A G) :
  rectangular X → length y = nrows X →
  linalg_inv (gram (with_bias X)) = Some Xi →
  nrows Xi = S (ncols X) → ncols Xi = S (ncols X) →
  ∃ (w0 : A) (ws : list A) (w1 : world A G),
    normal_equation_weights Xi (with_bias X) y = w0 :: ws
    ∧ (init ;; fit linalg_inv random_rand (Arr2 X) y "least_squares"
                 learning_rate iterations) w
      = (Ok None, w1)
    ∧ ∀ X' : ndarray2 A,
        predict (Arr2 X') w1
        = (if decide (ncols X' = ncols X)
           then Ok (map (λ r, w0 + inner r ws)%np (rows X'))
           else Raise ValueError, w1).
Proof.
  intros HX Hy Hinv Hr Hc.
  set (wi := World (heap w) None None (rng w) (stdout w)).
  destruct (normal_equation_weights Xi (with_bias X) y) as [|w0 ws] eqn:Hw.
  { apply (f_equal length) in Hw. unfold normal_equation_weights in Hw.
    rewrite length_map in Hw. unfold nrows in Hr. simpl in Hw. lia. }
  assert (Hlen : length ws = ncols X).
  { apply (f_equal length) in Hw. unfold normal_equation_weights in Hw.
    rewrite length_map in Hw. unfold nrows in Hr. simpl in Hw. lia. }
  assert (Hfit : fit linalg_inv random_rand (Arr2 X) y "least_squares"
                   learning_rate iterations wi
                 = (Ok None, World (<[fresh (dom (heap wi)) := ws]> (heap wi))
                                   (Some (fresh (dom (heap wi)))) (Some w0)
                                   (rng wi) (stdout wi))).
  { unfold fit. rewrite decide_False; last first.
    { intros Hn. apply Hn. apply list_elem_of_here. }
    rewrite decide_True by done.
    erewrite bind_ok; [reflexivity|].
    apply fit_multiple_run with (Xi := Xi); try done.
    - by apply with_bias_rectangular.
    - unfold nrows in *. simpl. by rewrite length_map. }
  eexists w0, ws, _. split; [done|]. split.
  { unfold bind at 1, init, modify. fold wi. exact Hfit. }
  intros X'. erewrite predict_run; [|reflexivity|reflexivity|apply lookup_insert_eq].
  unfold np_dot_mv. rewrite Hlen.
  destruct (decide (ncols X' = ncols X)); simpl; [by rewrite map_map|done].
Qed.

(** X2: with a single coefficient c and intercept b, [predict] on a flat
    sequence returns b + c * x for each of its entries x. *)
Theorem predict_flat_single_feature (v : list A) (w : world A G) (l : loc) (b c : A) :
  coefficients w = Some l → intercept w = Some b → heap w !! l = Some [c] →
  predict (Arr1 v) w = (Ok (map (λ x, b + c * x)%np v), w).
Proof.
  intros Hl Hb Hc. rewrite (predict_run _ _ _ _ _ Hl Hb Hc).
  unfold broadcast. destruct v as [|x [|x' v]]; simpl; try done.
  by rewrite map_map.
Qed.

(** X3: with two coefficients or more, [predict] on a flat sequence v does
    not predict one value per entry of v: the product is taken entry by
    entry, so that v of the length of the coefficients yields b + c_i * v_i,
    a v of one entry x yields b + c_i * x, and every other v raises
    ValueError. *)
Theorem predict_flat_many_features (v : list A) (w : world A G) (l : loc)
    (b : A) (c : list A) :
  coefficients w = Some l → intercept w = Some b → heap w !! l = Some c →
  2 ≤ length c →
  predict (Arr1 v) w
  = (if decide (length v = length c) then Ok (zip_with (λ ci x, b + ci * x)%np c v)
     else match v with
          | [x] => Ok (map (λ ci, b + ci * x)%np c)
          | _ => Raise ValueError
          end, w).
Proof.
  intros Hl Hb Hc Hlen. rewrite (predict_run _ _ _ _ _ Hl Hb Hc).
  unfold broadcast.
  destruct (decide (length v = length c)) as [Hv|Hv].
  - rewrite decide_True by done. simpl. f_equal. f_equal.
    clear. revert v. induction c as [|ci c IH]; intros [|x v]; simpl; try done.
    by rewrite IH.
  - rewrite decide_False by done.
    destruct c as [|c1 [|c2 c]]; simpl in Hlen; try lia.
    destruct v as [|x [|x' v]]; simpl; try done.
    by rewrite map_map.
Qed.

(** X5: a fit by least squares that raises leaves the model as it was:
    intercept and coefficients are assigned only once the weights are
    there. *)
Theorem fit_least_squares_atomic (X : ndarray A) (y : list A)
    (learning_rate : A) (iterations : Z) (w : world A G) (e : exn) :
  (fit linalg_inv random_rand X y "least_squares" learning_rate iterations w).1
  = Raise e →
  (fit linalg_inv random_rand X y "least_squares" learning_rate iterations w).2 = w.
Proof.
  unfold fit. rewrite decide_False; last first.
  { intros Hn. apply Hn. apply list_elem_of_here. }
  rewrite decide_True by done.
  unfold fit_multiple, bind, lift, set_intercept, set_coefficients, alloc, modify, ret.
  repeat (case_match; simplify_eq /=; try done).
Qed.

(** *** What [fit] leaves of the heap *)

Lemma fit_multiple_keeps (X : ndarray2 A) (y : list A) (w : world A G) :
  heap w ⊆ heap (fit_multiple linalg_inv X y w).2.
Proof.
  unfold fit_multiple, bind, lift, set_intercept, set_coefficients, alloc, modify, ret.
  repeat (case_match; simplify_eq /=; try done).
  apply insert_subseteq, not_elem_of_dom, is_fresh.
Qed.

Lemma gd_step_keeps (X : ndarray2 A) (y : list A) (learning_rate : A)
    (m epoch : nat) (hist : history A) (w : world A G) (l : loc)
    (h0 : gmap loc (list A)) :
  coefficients w = Some l → h0 !! l = None → h0 ⊆ heap w →
  coefficients (gd_step X y learning_rate m epoch hist w).2 = Some l
  ∧ h0 ⊆ heap (gd_step X y learning_rate m epoch hist w).2.
Proof.
  intros Hl Hnone Hsub.
  assert (Hins : ∀ c, h0 ⊆ <[l := c]> (heap w)).
  { intros c. by apply insert_subseteq_r. }
  assert (Hins2 : ∀ c c', h0 ⊆ <[fresh (dom (<[l := c]> (heap w))) := c']> (<[l := c]> (heap w))).
  { intros c c'. apply insert_subseteq_r; [|done].
    eapply lookup_weaken_None; [|apply (Hins c)].
    apply not_elem_of_dom, is_fresh. }
  unfold gd_step, bind, get_intercept, get_coefficients, load, gets, lift,
    store, set_intercept, alloc, print, modify, ret.
  repeat (case_match; simplify_eq /=; try done).
Qed.

Lemma gd_loop_keeps (X : ndarray2 A) (y : list A) (learning_rate : A)
    (m : nat) (h0 : gmap loc (list A)) (l : loc) (n : nat) :
  ∀ (epoch : nat) (hist : history A) (w : world A G),
  coefficients w = Some l → h0 !! l = None → h0 ⊆ heap w →
  h0 ⊆ heap (gd_loop X y learning_rate m n epoch hist w).2.
Proof.
  induction n as [|n IH]; intros epoch hist w Hl Hnone Hsub; simpl; [done|].
  unfold bind.
  destruct (gd_step_keeps X y learning_rate m epoch hist w l h0 Hl Hnone Hsub)
    as [Hl1 Hsub1].
  destruct (gd_step X y learning_rate m epoch hist w) as [[hist1|e] w1]; simpl in *.
  - by apply IH.
  - done.
Qed.

Lemma fit_gradient_descent_keeps (X : ndarray2 A) (y : list A)
    (learning_rate : A) (iterations : Z) (w : world A G) :
  heap w ⊆ heap (fit_gradient_descent random_rand X y learning_rate iterations w).2.
Proof.
  unfold fit_gradient_descent, np_random_rand.
  destruct (decide (Z.of_nat (ncols X) - 1 < 0)%Z); [done|].
  unfold bind at 1. rewrite (np_random_draws_run random_rand).
  unfold bind, alloc, set_coefficients, set_intercept, modify, np_random_rand1. simpl.
  destruct (random_rand _) as [u g2]. simpl.
  apply gd_loop_keeps with (l := fresh (dom (heap w))); simpl.
  - done.
  - apply not_elem_of_dom, is_fresh.
  - apply insert_subseteq, not_elem_of_dom, is_fresh.
Qed.

(** X6: [fit], by either method and also when it raises, changes no array
    that existed before the call: the arrays it writes to are the ones it
    has allocated itself. *)
Theorem fit_keeps_arrays (X : ndarray A) (y : list A) (method : string)
    (learning_rate : A) (iterations : Z) (w : world A G) :
  heap w ⊆ heap (fit linalg_inv random_rand X y method learning_rate iterations w).2.
Proof.
  unfold fit. destruct (decide (method ∉ _)); [done|].
  destruct (decide (method = "least_squares")).
  - unfold bind. pose proof (fit_multiple_keeps (with_bias match X with
        | Arr1 v => reshape_column v | Arr2 X2 => X2 end) y w) as Hk.
    by destruct (fit_multiple _ _ _ _) as [[[]|?] w1].
  - destruct (decide (method = "gradient_descent")); [|done].
    unfold bind. pose proof (fit_gradient_descent_keeps (with_bias match X with
        | Arr1 v => reshape_column v | Arr2 X2 => X2 end) y learning_rate iterations w) as Hk.
    by destruct (fit_gradient_descent _ _ _ _ _ _) as [[hist|?] w1].
Qed.

(** *** Gradient descent: the start, the edges, the progress lines *)

Lemma fit_gradient_descent_start (X : ndarray2 A) (y : list A)
    (learning_rate : A) (iterations : Z) (w : world A G) :
  1 ≤ ncols X →
  fit_gradient_descent random_rand X y learning_rate iterations w
  = gd_loop X y learning_rate (length y) (Z.to_nat iterations) 0 (History [] [] [])
      (initialised random_rand (ncols X - 1) w).
Proof.
  intros Hc. unfold fit_gradient_descent, np_random_rand.
  rewrite decide_False by lia.
  replace (Z.to_nat (Z.of_nat (ncols X) - 1)) with (ncols X - 1) by lia.
  unfold bind at 1. rewrite (np_random_draws_run random_rand).
  unfold initialised, gd_init.
  destruct (draws random_rand (ncols X - 1) (rng w)) as [r g1].
  unfold bind, alloc, set_coefficients, set_intercept, modify, np_random_rand1. simpl.
  by destruct (random_rand g1) as [u g2].
Qed.

Lemma initialised_coefficients (d : nat) (w : world A G) :
  ∃ c, heap (initialised random_rand d w) !! fresh (dom (heap w)) = Some c
       ∧ c = (gd_init random_rand d (rng w)).1.2 ∧ length c = d.
Proof.
  eexists. split; [apply lookup_insert_eq|]. split; [done|].
  unfold gd_init. pose proof (draws_length random_rand d (rng w)) as Hlen.
  destruct (draws random_rand d (rng w)) as [r g1].
  destruct (random_rand g1) as [u g2]. simpl in *. by rewrite length_map.
Qed.

(** X8: with [iterations] zero or negative the loop of
    [fit_gradient_descent] is not entered: the three histories are empty and
    the model holds the random initial parameters. *)
Theorem fit_gradient_descent_no_iterations (X : ndarray2 A) (y : list A)
    (learning_rate : A) (iterations : Z) (w : world A G) :
  1 ≤ ncols X → (iterations ≤ 0)%Z →
  fit_gradient_descent random_rand X y learning_rate iterations w
  = (Ok (History [] [] []), initialised random_rand (ncols X - 1) w).
Proof.
  intros Hc Hit. rewrite fit_gradient_descent_start by done.
  by replace (Z.to_nat iterations) with 0 by lia.
Qed.

(** X9: when y has neither the length of X's rows nor length one (and X has
    not exactly one row), the first pass of [fit_gradient_descent] raises
    ValueError at [predictions - y]; by then the model already holds the
    random initial parameters, those of an earlier fit are lost. *)
Theorem fit_gradient_descent_mismatch (X : ndarray2 A) (y : list A)
    (learning_rate : A) (iterations : Z) (w : world A G) :
  1 ≤ ncols X → (1 ≤ iterations)%Z →
  length y ≠ nrows X → length y ≠ 1 → nrows X ≠ 1 →
  fit_gradient_descent random_rand X y learning_rate iterations w
  = (Raise ValueError, initialised random_rand (ncols X - 1) w).
Proof.
  intros Hc Hit Hy Hy1 Hr1. rewrite fit_gradient_descent_start by done.
  destruct (Z.to_nat iterations) as [|n] eqn:Hn; [lia|]. simpl.
  destruct (initialised_coefficients (ncols X - 1) w) as (c & Hh & _ & Hlen).
  assert (Hb : intercept (initialised random_rand (ncols X - 1) w)
               = Some (gd_init random_rand (ncols X - 1) (rng w)).1.1) by done.
  assert (Hl : coefficients (initialised random_rand (ncols X - 1) w)
               = Some (fresh (dom (heap w)))) by done.
  generalize dependent (initialised random_rand (ncols X - 1) w). intros w0 Hh Hb Hl.
  unfold bind at 1. unfold gd_step, bind, get_intercept, get_coefficients, load, gets, lift.
  rewrite Hb, Hl, Hh. simpl.
  unfold np_dot_mv. rewrite decide_True by (simpl; lia).
  rewrite broadcast_mismatch; [done|..].
  - rewrite length_map. unfold nrows in Hy. congruence.
  - by rewrite length_map.
  - done.
Qed.

Lemma gd_loop_stdout (X : ndarray2 A) (y : list A) (learning_rate : A) (n : nat) :
  ∀ (epoch : nat) (h : history A) (w : world A G) (l : loc) (p : A * list A),
  rectangular X → ncols X = S (length p.2) →
  length y = nrows X → 1 ≤ nrows X →
  intercept w = Some p.1 → coefficients w = Some l → heap w !! l = Some p.2 →
  stdout (gd_loop X y learning_rate (length y) n epoch h w).2
  = stdout w
    ++ map (λ k, (k, gd_loss X y (gd_params X y learning_rate p (k - epoch))))
           (filter (λ k, k `mod` 100 = 0) (seq epoch n)).
Proof.
  induction n as [|n IH]; intros epoch h w l p HX Hc Hy Hm Hb Hl Hh; simpl.
  { by rewrite app_nil_r. }
  erewrite bind_ok by (by eapply gd_step_run).
  set (p1 := gd_update X y learning_rate p).
  assert (Hs1l : fresh (dom (<[l := p1.2]> (heap w))) ≠ l).
  { intros Heq. apply (is_fresh (dom (<[l := p1.2]> (heap w)))).
    rewrite Heq at 1. rewrite dom_insert_L, elem_of_union, elem_of_singleton. by left. }
  erewrite (IH (S epoch) _ (after_step X y learning_rate epoch l p w) l p1); try done.
  - unfold after_step. simpl. rewrite <- app_assoc. f_equal.
    rewrite filter_cons.
    assert (Htail : map (λ k, (k, gd_loss X y (gd_params X y learning_rate p1 (k - S epoch))))
                      (filter (λ k, k `mod` 100 = 0) (seq (S epoch) n))
                    = map (λ k, (k, gd_loss X y (gd_params X y learning_rate p (k - epoch))))
                        (filter (λ k, k `mod` 100 = 0) (seq (S epoch) n))).
    { apply list_fmap_ext. intros i k Hk.
      apply list_elem_of_lookup_2, list_elem_of_filter in Hk as [_ Hk].
      apply elem_of_seq in Hk. unfold p1. rewrite gd_params_shift.
      do 3 f_equal. lia. }
    rewrite Htail. destruct (decide (epoch `mod` 100 = 0)); simpl; [|done].
    by rewrite Nat.sub_diag.
  - unfold p1. by rewrite gd_update_length.
  - unfold after_step. simpl. fold p1.
    by rewrite lookup_insert_ne, lookup_insert_eq.
Qed.

(** X10: [fit_gradient_descent] prints one progress line for each epoch
    that is a multiple of 100 below [iterations], in order, with the loss
    before that epoch's update; it prints nothing else. *)
Theorem fit_gradient_descent_progress (X : ndarray2 A) (y : list A)
    (learning_rate : A) (iterations : Z) (w : world A G) :
  rectangular X → 1 ≤ ncols X → length y = nrows X → 1 ≤ nrows X →
  stdout (fit_gradient_descent random_rand X y learning_rate iterations w).2
  = stdout w
    ++ map (λ k, (k, gd_loss X y
                       (gd_params X y learning_rate
                          (gd_init random_rand (ncols X - 1) (rng w)).1 k)))
           (filter (λ k, k `mod` 100 = 0) (seq 0 (Z.to_nat iterations))).
Proof.
  intros HX Hc Hy Hm. rewrite fit_gradient_descent_start by done.
  destruct (initialised_coefficients (ncols X - 1) w) as (c & Hh & Hceq & Hlen).
  erewrite gd_loop_stdout with (l := fresh (dom (heap w)))
    (p := (gd_init random_rand (ncols X - 1) (rng w)).1); try done.
  - f_equal. apply list_fmap_ext. intros i k _. by rewrite Nat.sub_0_r.
  - rewrite <- Hceq. lia.
  - by rewrite <- Hceq.
Qed.

(** X7: [fit_gradient_descent] starts from scratch: run on two models that
    differ in everything but the state of the random generator, it returns
    the same losses and intercepts and leaves the same intercept, the same
    coefficient values and the same generator state. *)
Theorem fit_gradient_descent_forgets (X : ndarray2 A) (y : list A)
    (learning_rate : A) (iterations : Z) (w1 w2 : world A G) :
  rng w1 = rng w2 →
  rectangular X → 1 ≤ ncols X → length y = nrows X → 1 ≤ nrows X →
  ∃ (h1 h2 : history A) (v1 v2 : world A G) (l1 l2 : loc) (c : list A),
    fit_gradient_descent random_rand X y learning_rate iterations w1 = (Ok h1, v1)
    ∧ fit_gradient_descent random_rand X y learning_rate iterations w2 = (Ok h2, v2)
    ∧ loss_history h1 = loss_history h2
    ∧ b_history h1 = b_history h2
    ∧ intercept v1 = intercept v2
    ∧ coefficients v1 = Some l1 ∧ heap v1 !! l1 = Some c
    ∧ coefficients v2 = Some l2 ∧ heap v2 !! l2 = Some c
    ∧ rng v1 = rng v2.
Proof.
  intros Hrng HX Hc Hy Hm.
  destruct (fit_gradient_descent_run random_rand X y learning_rate iterations w1)
    as (h1 & v1 & Hrun1 & Hloss1 & Hbs1 & _ & _ & _ & _ & _
        & Hb1 & Hl1 & Hh1 & _ & Hr1); try done.
  destruct (fit_gradient_descent_run random_rand X y learning_rate iterations w2)
    as (h2 & v2 & Hrun2 & Hloss2 & Hbs2 & _ & _ & _ & _ & _
        & Hb2 & Hl2 & Hh2 & _ & Hr2); try done.
  rewrite <- Hrng in *.
  eexists h1, h2, v1, v2, _, _, _.
  split_and!; try done; congruence.
Qed.

Lemma gd_params_length (X : ndarray2 A) (y : list A) (learning_rate : A)
    (p : A * list A) (k : nat) :
  rectangular X → ncols X = S (length p.2) →
  length (gd_params X y learning_rate p k).2 = length p.2.
Proof.
  intros HX Hc. induction k as [|k IH]; [done|].
  unfold gd_params in *. simpl. rewrite gd_update_length; [done|done|].
  by rewrite IH.
Qed.

(** X11: after a fit by gradient descent on a two-dimensional X with one
    target per row, [predict] on X succeeds and returns b + r · c for each
    row r, where (b, c) is the result of [iterations] parameter updates from
    the random initial parameters; [fit] returns one loss per iteration. *)
Theorem fit_gradient_descent_then_predict (X : ndarray2 A) (y : list A)
    (learning_rate : A) (iterations : Z) (w : world A G) :
  rectangular X → length y = nrows X → 1 ≤ nrows X →
  let p := gd_params (with_bias X) y learning_rate
             (gd_init random_rand (ncols X) (rng w)).1 (Z.to_nat iterations) in
  ∃ (h : history A) (w' : world A G),
    fit linalg_inv random_rand (Arr2 X) y "gradient_descent" learning_rate iterations w
    = (Ok (Some h), w')
    ∧ length (loss_history h) = Z.to_nat iterations
    ∧ length p.2 = ncols X
    ∧ predict (Arr2 X) w' = (Ok (map (λ r, p.1 + inner r p.2)%np (rows X)), w').
Proof.
  intros HX Hy Hm p.
  destruct (fit_gradient_descent_run random_rand (with_bias X) y learning_rate iterations w)
    as (h & w' & Hrun & Hloss & _ & _ & _ & _ & _ & _
        & Hb' & Hl' & Hh' & _ & _).
  { by apply with_bias_rectangular. }
  { simpl. lia. }
  { unfold nrows in *. simpl. by rewrite length_map. }
  { unfold nrows in *. simpl. by rewrite length_map. }
  simpl in *. rewrite Nat.sub_0_r in *. fold p in Hb', Hh'.
  assert (Hlen : length p.2 = ncols X).
  { unfold p. rewrite gd_params_length.
    - destruct (initialised_coefficients (ncols X) w) as (c & _ & <- & Hc). lia.
    - by apply with_bias_rectangular.
    - destruct (initialised_coefficients (ncols X) w) as (c & _ & <- & Hc). simpl. lia. }
  exists h, w'. split_and!.
  - unfold fit. rewrite decide_False; last first.
    { intros Hn. apply Hn. apply list_elem_of_further, list_elem_of_here. }
    rewrite decide_False by done. rewrite decide_True by done.
    unfold bind. by rewrite Hrun.
  - by rewrite Hloss, length_map, length_seq.
  - done.
  - erewrite predict_run by done.
    unfold np_dot_mv. rewrite decide_True by done. simpl. by rewrite map_map.
Qed.
End regressor_properties.

Local Open Scope float_scope.

(** A model that an earlier fit has left with intercept 3 and slope 7,
    initialised again and fitted on the two samples of the line. *)
Lemma fit_then_predict_witness :
  ∃ (w0 : float) (ws : list float) (w1 : world float (list float)),
    normal_equation_weights (Mat 2 [[1; -0.5]; [-0.5; 0.5]]) (with_bias line_X) line_y
    = w0 :: ws
    ∧ (init ;; fit inv_2x2 replay (Arr2 line_X) line_y "least_squares" 0.5 3)
        (World (<[0%nat := [7]]> ∅) (Some 0%nat) (Some 3) [] [])
      = (Ok None, w1)
    ∧ ∀ X' : ndarray2 float,
        predict (Arr2 X') w1
        = (if decide (ncols X' = ncols line_X)
           then Ok (map (λ r, w0 + inner r ws)%np (rows X'))
           else Raise ValueError, w1).
Proof.
  apply (fit_then_predict inv_2x2 replay line_X line_y (Mat 2 [[1; -0.5]; [-0.5; 0.5]])
           0.5 3 (World (<[0%nat := [7]]> ∅) (Some 0%nat) (Some 3) [] [])).
  - repeat constructor.
  - reflexivity.
  - vm_compute. reflexivity.
  - reflexivity.
  - reflexivity.
Defined.

Lemma predict_flat_single_feature_witness :
  predict (Arr1 [0; 1; 2]) (World (<[0%nat := [2]]> ∅) (Some 0%nat) (Some 1) [] [])
  = (Ok (map (λ x, 1 + 2 * x)%np [0; 1; 2]),
     World (<[0%nat := [2]]> ∅) (Some 0%nat) (Some 1) ([] : list float) []).
Proof.
  apply (predict_flat_single_feature [0; 1; 2]
           (World (<[0%nat := [2]]> ∅) (Some 0%nat) (Some 1) ([] : list float) [])
           0%nat 1 2).
  - reflexivity.
  - reflexivity.
  - apply lookup_insert_eq.
Defined.

Lemma predict_flat_many_features_witness :
  predict (Arr1 [4]) (World (<[0%nat := [2; 3]]> ∅) (Some 0%nat) (Some 1) [] [])
  = (Ok (map (λ ci, 1 + ci * 4)%np [2; 3]),
     World (<[0%nat := [2; 3]]> ∅) (Some 0%nat) (Some 1) ([] : list float) []).
Proof.
  apply (predict_flat_many_features [4]
           (World (<[0%nat := [2; 3]]> ∅) (Some 0%nat) (Some 1) ([] : list float) [])
           0%nat 1 [2; 3]).
  - reflexivity.
  - reflexivity.
  - apply lookup_insert_eq.
  - simpl. lia.
Defined.

(** Two samples at the same abscissa: the matrix of the normal equation is
    singular, and the fitted model keeps intercept 3 and slope 7. *)
Lemma fit_least_squares_atomic_witness :
  (fit inv_2x2 replay (Arr2 (Mat 1 [[0]; [0]])) [1; 5] "least_squares" 0.5 3
     (World (<[0%nat := [7]]> ∅) (Some 0%nat) (Some 3) [] [])).2
  = World (<[0%nat := [7]]> ∅) (Some 0%nat) (Some 3) [] [].
Proof.
  apply (fit_least_squares_atomic inv_2x2 replay (Arr2 (Mat 1 [[0]; [0]])) [1; 5] 0.5 3
           (World (<[0%nat := [7]]> ∅) (Some 0%nat) (Some 3) [] []) LinAlgError).
  vm_compute. reflexivity.
Defined.

Lemma fit_gradient_descent_forgets_witness :
  ∃ (h1 h2 : history float) (v1 v2 : world float (list float)) (l1 l2 : loc)
    (c : list float),
    fit_gradient_descent replay (with_bias line_X) line_y 0.5 2 (fresh_model [0.5; 0.25])
    = (Ok h1, v1)
    ∧ fit_gradient_descent replay (with_bias line_X) line_y 0.5 2
        (World (<[0%nat := [7]]> ∅) (Some 0%nat) (Some 3) [0.5; 0.25] [(0%nat, 1)])
      = (Ok h2, v2)
    ∧ loss_history h1 = loss_history h2
    ∧ b_history h1 = b_history h2
    ∧ intercept v1 = intercept v2
    ∧ coefficients v1 = Some l1 ∧ heap v1 !! l1 = Some c
    ∧ coefficients v2 = Some l2 ∧ heap v2 !! l2 = Some c
    ∧ rng v1 = rng v2.
Proof.
  apply (fit_gradient_descent_forgets replay (with_bias line_X) line_y 0.5 2
           (fresh_model [0.5; 0.25])
           (World (<[0%nat := [7]]> ∅) (Some 0%nat) (Some 3) [0.5; 0.25] [(0%nat, 1)])).
  - reflexivity.
  - repeat constructor.
  - vm_compute. lia.
  - reflexivity.
  - vm_compute. lia.
Defined.

Lemma fit_gradient_descent_no_iterations_witness :
  fit_gradient_descent replay (with_bias line_X) line_y 0.5 0 (fresh_model [0.5; 0.25])
  = (Ok (History [] [] []),
     initialised replay (ncols (with_bias line_X) - 1) (fresh_model [0.5; 0.25])).
Proof.
  apply (fit_gradient_descent_no_iterations replay (with_bias line_X) line_y 0.5 0
           (fresh_model [0.5; 0.25])).
  - vm_compute. lia.
  - lia.
Defined.

(** Three rows and two targets. *)
Lemma fit_gradient_descent_mismatch_witness :
  fit_gradient_descent replay (with_bias (Mat 1 [[0]; [2]; [3]])) line_y 0.5 1
    (fresh_model [0.5; 0.25])
  = (Raise ValueError,
     initialised replay (ncols (with_bias (Mat 1 [[0]; [2]; [3]])) - 1)
       (fresh_model [0.5; 0.25])).
Proof.
  apply (fit_gradient_descent_mismatch replay (with_bias (Mat 1 [[0]; [2]; [3]])) line_y
           0.5 1 (fresh_model [0.5; 0.25])).
  - vm_compute. lia.
  - lia.
  - vm_compute. lia.
  - vm_compute. lia.
  - vm_compute. lia.
Defined.

(** 101 iterations: epochs 0 and 100 are reported. *)
Lemma fit_gradient_descent_progress_witness :
  stdout (fit_gradient_descent replay (with_bias line_X) line_y 0.5 101
            (fresh_model [0.5; 0.25])).2
  = stdout (fresh_model [0.5; 0.25])
    ++ map (λ k, (k, gd_loss (with_bias line_X) line_y
                       (gd_params (with_bias line_X) line_y 0.5
                          (gd_init replay (ncols (with_bias line_X) - 1)
                             (rng (fresh_model [0.5; 0.25]))).1 k)))
           (filter (λ k, k `mod` 100 = 0%nat) (seq 0 (Z.to_nat 101))).
Proof.
  apply (fit_gradient_descent_progress replay (with_bias line_X) line_y 0.5 101
           (fresh_model [0.5; 0.25])).
  - repeat constructor.
  - vm_compute. lia.
  - reflexivity.
  - vm_compute. lia.
Defined.

Lemma fit_gradient_descent_then_predict_witness :
  let p := gd_params (with_bias line_X) line_y 0.5
             (gd_init replay (ncols line_X) (rng (fresh_model [0.5; 0.25]))).1
             (Z.to_nat 2) in
  ∃ (h : history float) (w' : world float (list float)),
    fit inv_2x2 replay (Arr2 line_X) line_y "gradient_descent" 0.5 2
      (fresh_model [0.5; 0.25])
    = (Ok (Some h), w')
    ∧ length (loss_history h) = Z.to_nat 2
    ∧ length p.2 = ncols line_X
    ∧ predict (Arr2 line_X) w' = (Ok (map (λ r, p.1 + inner r p.2)%np (rows line_X)), w').
Proof.
  apply (fit_gradient_descent_then_predict inv_2x2 replay line_X line_y 0.5 2
           (fresh_model [0.5; 0.25])).
  - repeat constructor.
  - reflexivity.
  - vm_compute. lia.
Defined.

Local Close Scope float_scope.

(** ** evaluate_regression: degenerate inputs *)

Section evaluate_properties.
Context {A : Type} `{Numeric A}.

(** X12: on an empty [y_true], [evaluate_regression] returns no metrics: it
    raises ZeroDivisionError at [1 / y_true.shape[0]] when [y_pred] has at
    most one entry, and ValueError at [y_true - y_pred] otherwise. *)
Theorem evaluate_regression_empty (y_pred : list A) :
  evaluate_regression [] y_pred
  = Raise (if decide (length y_pred ≤ 1) then ZeroDivisionError else ValueError).
Proof.
  unfold evaluate_regression, broadcast.
  destruct y_pred as [|b [|b' y_pred]]; simpl; try done.
Qed.

(** X13: a prediction of a single entry is broadcast: the metrics are those
    of the prediction that repeats the entry for every entry of [y_true]. *)
Theorem evaluate_regression_broadcast (y_true : list A) (c : A) :
  evaluate_regression y_true [c]
  = evaluate_regression y_true (replicate (length y_true) c).
Proof.
  unfold evaluate_regression. by rewrite broadcast_one, broadcast_replicate.
Qed.

(** X14: [evaluate_regression] raises ValueError when the two sequences
    differ in length and neither has length one. *)
Theorem evaluate_regression_mismatch (y_true y_pred : list A) :
  length y_true ≠ length y_pred → length y_true ≠ 1 → length y_pred ≠ 1 →
  evaluate_regression y_true y_pred = Raise ValueError.
Proof.
  intros Hl Ht Hp. unfold evaluate_regression.
  by rewrite broadcast_mismatch.
Qed.

(** X15: predicting the mean of [y_true] for every entry gives R2 = 0,
    where the total sum of squares divided by itself is 1 (it is neither
    zero, nor infinite, nor nan). *)
Theorem evaluate_regression_mean_predictor (y_true : list A) :
  1 ≤ length y_true →
  let tss := np_sum (np_square (map (λ v, v - np_mean y_true)%np y_true)) in
  (tss / tss = 1)%np → (1 - 1 = 0)%np →
  ∃ d : gmap string A,
    evaluate_regression y_true (replicate (length y_true) (np_mean y_true)) = Ok d
    ∧ d !! "R2" = Some 0%np.
Proof.
  intros Hpos tss Hdiv Hsub. unfold evaluate_regression.
  rewrite broadcast_replicate, (py_one_over_pos _ Hpos). simpl.
  eexists. split; [reflexivity|].
  do 2 (rewrite lookup_insert_ne by done). rewrite lookup_insert_eq.
  fold tss. by rewrite Hdiv, Hsub.
Qed.
End evaluate_properties.

Local Open Scope float_scope.

Lemma evaluate_regression_mismatch_witness :
  evaluate_regression [1; 2; 3] [1; 2] = Raise ValueError.
Proof.
  apply (evaluate_regression_mismatch [1; 2; 3] [1; 2]); simpl; lia.
Defined.

(** The mean of 1, 2, 3 is 2, the total sum of squares is 2. *)
Lemma evaluate_regression_mean_predictor_witness :
  ∃ d : gmap string float,
    evaluate_regression [1; 2; 3] [2; 2; 2] = Ok d ∧ d !! "R2" = Some 0.
Proof.
  destruct (evaluate_regression_mean_predictor [1; 2; 3]) as (d & Hd & Hr2).
  - simpl. lia.
  - vm_compute. reflexivity.
  - vm_compute. reflexivity.
  - exists d. split; [exact Hd | exact Hr2].
Defined.

Local Close Scope float_scope.

(** ** one_hot_encode: indices, shape and rows of the result *)

Section one_hot_further.
Context {cell : Type} `{EqDecision cell}.
Context (cell_le : relation cell) `{!RelDecision cell_le}.
Context (cell_of_int : Z → cell).

Lemma sorted_reverse_head (cats : list nat) (j : nat) :
  j ∈ cats →
  ∃ i rest, sorted_reverse cats = i :: rest ∧ j ≤ i.
Proof.
  intros Hj. destruct (sorted_reverse_spec cats) as [Hsorted Hperm].
  rewrite <- Hperm in Hj.
  destruct (sorted_reverse cats) as [|i rest]; [by apply elem_of_nil in Hj|].
  exists i, rest. split; [done|].
  apply StronglySorted_inv in Hsorted as [_ Hi].
  apply elem_of_cons in Hj as [->|Hj]; [done|].
  rewrite Forall_forall in Hi. by apply Hi.
Qed.

(** X16: a categorical index at or beyond the number of columns makes
    [one_hot_encode] raise IndexError, whatever the other indices are; the
    array X is unchanged, the copy made of it is all that was allocated. *)
Theorem one_hot_encode_out_of_range (h : gmap loc (ndarray2 cell)) (X : loc)
    (X0 : ndarray2 cell) (categorical_indices : list nat) (drop_first : bool) (j : nat) :
  h !! X = Some X0 → j ∈ categorical_indices → ncols X0 ≤ j →
  one_hot_encode cell_le cell_of_int X categorical_indices drop_first h
  = (Raise IndexError, <[fresh (dom h) := X0]> h).
Proof.
  intros Hh Hj Hcols.
  destruct (sorted_reverse_head categorical_indices j Hj) as (i & rest & Hs & Hji).
  unfold one_hot_encode, bind, array_at, gets, new_array. rewrite Hh, Hs. simpl.
  unfold bind, encode_column, bind, array_at, gets, lift. rewrite lookup_insert_eq. simpl.
  unfold column. by rewrite decide_False by lia.
Qed.

(** X17: the order in which the categorical indices are listed does not
    matter to [one_hot_encode]. *)
Theorem one_hot_encode_order_irrelevant (h : gmap loc (ndarray2 cell)) (X : loc)
    (cats cats' : list nat) (drop_first : bool) :
  cats ≡ₚ cats' →
  one_hot_encode cell_le cell_of_int X cats drop_first h
  = one_hot_encode cell_le cell_of_int X cats' drop_first h.
Proof.
  intros Hperm. unfold one_hot_encode.
  replace (sorted_reverse cats') with (sorted_reverse cats); [done|].
  destruct (sorted_reverse_spec cats) as [Hs1 Hp1].
  destruct (sorted_reverse_spec cats') as [Hs2 Hp2].
  assert (Hanti : AntiSymm (=) (flip (≤))).
  { intros a b Hab Hba. unfold flip in *. lia. }
  apply (StronglySorted_unique (flip (≤))); try done.
  by rewrite Hp1, Hp2.
Qed.



Lemma indicator_row (c : cell) (U : list cell) (k : nat) :
  NoDup U → U !! k = Some c →
  map (indicator cell_of_int c) U = one_hot_vector cell_of_int (length U) k.
Proof.
  intros Hnodup Hk. unfold one_hot_vector. apply list_eq. intros i.
  rewrite list_lookup_fmap.
  destruct (decide (i = k)) as [->|Hik].
  - rewrite Hk, list_lookup_insert_eq; last first.
    { rewrite length_replicate. by eapply lookup_lt_Some. }
    simpl. unfold indicator. by rewrite decide_True.
  - rewrite list_lookup_insert_ne by done.
    destruct (U !! i) as [x|] eqn:Hi; simpl.
    + rewrite lookup_replicate_2 by (by eapply lookup_lt_Some).
      unfold indicator. rewrite decide_False; [done|].
      intros ->. apply Hik. by eapply NoDup_lookup.
    + symmetry. apply lookup_replicate_None. by apply lookup_ge_None in Hi.
Qed.

(** Row [i] of the one-hot block, for the cell [c] of row [i], where [==]
    between cells is equality. *)
Lemma one_hot_block_row (categorical_column domain : list cell) (drop_first : bool)
    (i : nat) (c : cell) :
  object_array.np_unique cell_le categorical_column = Ok domain →
  categorical_column !! i = Some c →
  let unique_values := if drop_first then drop 1 domain else domain in
  Sorted cell_le domain
  ∧ NoDup domain
  ∧ (∀ x, x ∈ domain ↔ x ∈ categorical_column)
  ∧ ∃ k, domain !! k = Some c
         ∧ rows (one_hot_block cell_of_int categorical_column unique_values) !! i
           = Some (if drop_first
                   then drop 1 (one_hot_vector cell_of_int (length domain) k)
                   else one_hot_vector cell_of_int (length domain) k).
Proof.
  intros Hu Hi unique_values.
  assert (Hc : object_array.comparable cell_le categorical_column).
  { unfold object_array.np_unique in Hu. by case_decide. }
  destruct (np_unique_comparable cell_le categorical_column Hc) as (Hu' & Hs & Hn & Hmem).
  rewrite Hu' in Hu. injection Hu as <-.
  split_and!; [done|done|done|].
  assert (Hin : c ∈ np_unique cell_le categorical_column).
  { apply Hmem. by eapply list_elem_of_lookup_2. }
  apply list_elem_of_lookup in Hin as [k Hk].
  exists k. split; [done|].
  unfold one_hot_block. simpl. rewrite list_lookup_fmap, Hi. simpl. f_equal.
  unfold unique_values. destruct drop_first.
  - rewrite <- (indicator_row c _ k) by done. apply fmap_drop.
  - by apply indicator_row.
Qed.


End one_hot_further.

(** X19: in the one-hot block of a column of ints or of strings, the row of
    a cell is a row of zeros with a single one, at the place its value has
    among the sorted distinct values of the column; with [drop_first] it is
    that row without its first entry, hence all zeros for the first
    value. *)
Theorem one_hot_block_rows (categorical_column domain : list pyval) (drop_first : bool)
    (i : nat) (c : pyval) :
  object_array.np_unique pyval_le categorical_column = Ok domain →
  categorical_column !! i = Some c →
  let unique_values := if drop_first then drop 1 domain else domain in
  Sorted pyval_le domain
  ∧ NoDup domain
  ∧ (∀ x, x ∈ domain ↔ x ∈ categorical_column)
  ∧ ∃ k, domain !! k = Some c
         ∧ rows (one_hot_block PyInt categorical_column unique_values) !! i
           = Some (if drop_first
                   then drop 1 (one_hot_vector PyInt (length domain) k)
                   else one_hot_vector PyInt (length domain) k).
Proof. apply one_hot_block_row. Qed.

Lemma one_hot_encode_out_of_range_witness :
  one_hot_encode pyval_le PyInt 0 [1; 2] false {[0 := example_X]}
  = (Raise IndexError, <[fresh (dom ({[0 := example_X]} : gmap loc (ndarray2 pyval)))
                           := example_X]> {[0 := example_X]}).
Proof.
  apply (one_hot_encode_out_of_range pyval_le PyInt {[0 := example_X]} 0 example_X
           [1; 2] false 2).
  - reflexivity.
  - apply list_elem_of_further, list_elem_of_here.
  - simpl. lia.
Defined.

Lemma one_hot_encode_order_irrelevant_witness :
  one_hot_encode pyval_le PyInt 0 [0; 1] false {[0 := example_X]}
  = one_hot_encode pyval_le PyInt 0 [1; 0] false {[0 := example_X]}.
Proof.
  apply (one_hot_encode_order_irrelevant pyval_le PyInt {[0 := example_X]} 0
           [0; 1] [1; 0] false).
  apply perm_swap.
Defined.


(** The column "a", "b", "a": the row of "b" is [0, 1]. *)
Lemma one_hot_block_rows_witness :
  rows (one_hot_block PyInt [PyStr "a"; PyStr "b"; PyStr "a"] [PyStr "a"; PyStr "b"]) !! 1
  = Some (one_hot_vector PyInt 2 1).
Proof.
  destruct (one_hot_block_rows [PyStr "a"; PyStr "b"; PyStr "a"] [PyStr "a"; PyStr "b"]
              false 1 (PyStr "b")) as (_ & _ & _ & k & Hk & Hrow).
  - vm_compute. reflexivity.
  - reflexivity.
  - destruct k as [|[|k]]; [discriminate Hk|exact Hrow|].
    destruct k; discriminate Hk.
Defined.

